(** * Pull-request conversation: thread assembly, comment actions, status checks

    A shallow embedding of

    - [activityBlocks] and the two [handleAction] callbacks of
      web/src/pages/PullRequest/Conversation/Conversation.tsx, and
    - [CheckStore.Upsert] of the status-check store (Go, SQL).

    The TypeScript code builds its result by mutating arrays that are shared
    by reference ([push] on a block that sits in two arrays, [includes] on
    array identity), so arrays live in an explicit heap and the program is
    written in a state-and-failure monad over it. *)

From Stdlib Require Import ZArith Lia.
From stdpp Require Import base option list sorting gmap strings.

Local Open Scope Z_scope.

(** ** Data *)

(** [TypesPullReqActivity] (services/code): the fields this page reads.
    [id] is the backend's int64 key; [parent_id] is a nullable int64. *)
Record TypesPullReqActivity := {
  id : Z;
  parent_id : option Z;
  kind : string;
  type : string;
  created : Z;
  edited : Z;
  author : string;
  text : string
}.

#[global] Instance TypesPullReqActivity_eq_dec : EqDecision TypesPullReqActivity.
Proof. solve_decision. Defined.

(** Modelled from the spec: [CommentItem] and [activityToCommentItem] are
    declared in components/CommentBox and components/DiffViewer/DiffViewerUtils,
    which are not part of the sources at hand.  The mapper is pure and total,
    keeps the author and the timestamps and keeps the whole originating record
    in [payload]. *)
Module CommentItem.
Record t := {
  author : string;
  created : Z;
  updated : Z;
  content : string;
  payload : TypesPullReqActivity
}.
End CommentItem.

#[global] Instance CommentItem_eq_dec : EqDecision CommentItem.t.
Proof. solve_decision. Defined.

Definition activityToCommentItem (activity : TypesPullReqActivity) : CommentItem.t :=
  {| CommentItem.author := author activity;
     CommentItem.created := created activity;
     CommentItem.updated := edited activity;
     CommentItem.content := text activity;
     CommentItem.payload := activity |}.

(** Modelled from the spec: the [CommentType] enum lives in DiffViewerUtils;
    the spec names the coalescible system type [title_change]. *)
Definition CommentType_TITLE_CHANGE : string := "title_change"%string.

(** JavaScript truthiness of a nullable number: [null] and [0] are falsy. *)
Definition truthy (n : option Z) : bool :=
  match n with
  | None => false
  | Some z => negb (z =? 0)
  end.

(** [a === b] for a nullable number against a number. *)
Definition strict_eq (a : option Z) (b : Z) : bool :=
  match a with
  | None => false
  | Some z => z =? b
  end.

(** ** lodash [orderBy (xs, 'edited', 'desc')]

    lodash compares the criteria and falls back on the original index, so the
    result is the stable sort by [edited], largest first. *)
Fixpoint insert_desc (x : TypesPullReqActivity) (l : list TypesPullReqActivity)
  : list TypesPullReqActivity :=
  match l with
  | [] => [x]
  | y :: l' => if edited y <=? edited x then x :: y :: l' else y :: insert_desc x l'
  end.

Definition orderBy_edited_desc (l : list TypesPullReqActivity) : list TypesPullReqActivity :=
  foldr insert_desc [] l.

(** ** The heap of arrays *)

Abbreviation loc := nat (only parsing).

(** One heap cell per JavaScript array, tagged with its static TypeScript
    type: [TypesPullReqActivity[]], [CommentItem[]], or an array of arrays. *)
Inductive cell :=
| ActivityArr (l : list TypesPullReqActivity)
| ItemArr (l : list CommentItem.t)
| RefArr (l : list loc).

Abbreviation heap := (list cell).

(** Element types that can be stored in an array cell. *)
Class Elem (A : Type) := {
  inj : list A → cell;
  proj : cell → option (list A);
  proj_inj : ∀ l, proj (inj l) = Some l;
  inj_proj : ∀ c l, proj c = Some l → c = inj l
}.

#[global, refine] Instance Elem_activity : Elem TypesPullReqActivity :=
  {| inj := ActivityArr;
     proj c := match c with ActivityArr l => Some l | _ => None end |}.
Proof.
- reflexivity.
- intros [] ? [=]; congruence.
Defined.

#[global, refine] Instance Elem_item : Elem CommentItem.t :=
  {| inj := ItemArr;
     proj c := match c with ItemArr l => Some l | _ => None end |}.
Proof.
- reflexivity.
- intros [] ? [=]; congruence.
Defined.

#[global, refine] Instance Elem_ref : Elem loc :=
  {| inj := RefArr;
     proj c := match c with RefArr l => Some l | _ => None end |}.
Proof.
- reflexivity.
- intros [] ? [=]; congruence.
Defined.

(** ** The monad: heap passing, [None] is a thrown [TypeError] *)

Definition JS (A : Type) : Type := heap → option (A * heap).

Definition ret {A} (a : A) : JS A := λ h, Some (a, h).

Definition bind {A B} (m : JS A) (k : A → JS B) : JS B :=
  λ h, match m h with
       | Some (a, h') => k a h'
       | None => None
       end.

Definition throw {A} : JS A := λ _, None.

Declare Scope js_scope.
Delimit Scope js_scope with js.
Notation "x <- m ;; k" := (bind m (λ x, k))
  (at level 100, m at next level, right associativity) : js_scope.
Notation "m ;;; k" := (bind m (λ _, k))
  (at level 100, right associativity) : js_scope.
Local Open Scope js_scope.

(** [[...xs]] / a literal: a fresh array. *)
Definition alloc {A} `{Elem A} (xs : list A) : JS loc :=
  λ h, Some (length h, h ++ [inj xs]).

(** Reading the whole array behind a reference. *)
Definition get {A} `{Elem A} (l : loc) : JS (list A) :=
  λ h, match h !! l with
       | Some c => match proj c with
                   | Some xs => Some (xs, h)
                   | None => None
                   end
       | None => None
       end.

Definition put {A} `{Elem A} (l : loc) (xs : list A) : JS unit :=
  λ h, if decide (l < length h)%nat then Some (tt, <[l := inj xs]> h) else None.

(** [arr.push(...ys)] *)
Definition Array_push {A} `{Elem A} (l : loc) (ys : list A) : JS unit :=
  xs <- get l ;; put l (xs ++ ys).

(** [arr.shift()]: drops element 0 in place; on an empty array it does nothing. *)
Definition Array_shift {A} `{Elem A} (l : loc) : JS (option A) :=
  xs <- get l ;;
  match xs with
  | [] => ret None
  | x :: xs' => put l xs' ;;; ret (Some x)
  end.

(** [arr[i]], where reading past the end yields [undefined]. *)
Definition Array_index {A} `{Elem A} (l : loc) (i : nat) : JS (option A) :=
  xs <- get l ;; ret (xs !! i).

(** [arr.length] *)
Definition Array_length {A} `{Elem A} (l : loc) : JS nat :=
  xs <- @get A _ l ;; ret (length xs).

(** The iteration shared by [forEach], [map] and [filter]: the length is read
    once, each element is read when its index is visited, and an index that
    is no longer present is skipped. *)
Fixpoint visit {A B} `{Elem A} (l : loc) (f : A → nat → JS B) (k n : nat) : JS (list B) :=
  match n with
  | O => ret []
  | S n' =>
      xs <- get l ;;
      match xs !! k with
      | Some x => y <- f x k ;; ys <- visit l f (S k) n' ;; ret (y :: ys)
      | None => visit l f (S k) n'
      end
  end.

Definition Array_forEach {A} `{Elem A} (l : loc) (f : A → nat → JS unit) : JS unit :=
  n <- @Array_length A _ l ;; visit l f 0 n ;;; ret tt.

Definition Array_map {A B} `{Elem A} `{Elem B} (l : loc) (f : A → JS B) : JS loc :=
  n <- @Array_length A _ l ;; ys <- visit l (λ x _, f x) 0 n ;; alloc ys.

Definition Array_filter {A} `{Elem A} (l : loc) (p : A → JS bool) : JS loc :=
  n <- @Array_length A _ l ;;
  ys <- visit l (λ x _, b <- p x ;; ret (if b : bool then [x] else [])) 0 n ;;
  alloc (concat ys).

(** [arr.includes(r)] on an array of references: identity of the referent. *)
Definition Array_includes (l : loc) (r : loc) : JS bool :=
  xs <- get l ;; ret (bool_decide (r ∈ (xs : list loc))).

(** lodash [orderBy]: a fresh, sorted array. *)
Definition orderBy (l : loc) : JS loc :=
  xs <- get l ;; alloc (orderBy_edited_desc xs).

(** ** [isSystemComment] and the title-change test of [activityBlocks] *)

(** [commentItems[0].payload?.kind === 'system']; throws on an empty block. *)
Definition isSystemComment (commentItems : loc) : JS bool :=
  c0 <- Array_index commentItems 0 ;;
  match c0 with
  | Some c => ret (bool_decide (kind (CommentItem.payload c) = "system"%string))
  | None => throw
  end.

(** [isSystemComment(_activities) &&
     _activities[0].payload?.type === CommentType.TITLE_CHANGE] *)
Definition isTitleChangeBlock (_activities : loc) : JS bool :=
  s <- isSystemComment _activities ;;
  if s : bool then
    c0 <- Array_index _activities 0 ;;
    match c0 with
    | Some c => ret (bool_decide (type (CommentItem.payload c) = CommentType_TITLE_CHANGE))
    | None => throw
    end
  else ret false.

(** ** [activityBlocks]

    [activities] is [None] while the fetch has not delivered ([undefined]). *)
Definition activityBlocks (activities : option loc) (newComments : loc) : JS loc :=
  blocks <- alloc ([] : list loc) ;;
  n <- @Array_length TypesPullReqActivity _ newComments ;;
  (if decide (n = O) then ret tt
   else
     sorted <- orderBy newComments ;;
     items <- Array_map sorted (λ a, ret (activityToCommentItem a)) ;;
     Array_push blocks [items]) ;;;
  (* Determine all parent activities *)
  roots <- match activities with
           | Some acts => Array_filter acts (λ activity, ret (negb (truthy (parent_id activity))))
           | None => alloc ([] : list TypesPullReqActivity)
           end ;;
  ordered <- orderBy roots ;;
  parentActivities <- Array_map ordered (λ _comment : TypesPullReqActivity, alloc [_comment]) ;;
  (* Then add their children as follow-up elements (same array) *)
  Array_forEach parentActivities (λ parentActivity _,
    match activities with
    | Some acts =>
        childActivities <-
          Array_filter acts (λ activity,
            p0 <- Array_index parentActivity 0 ;;
            match p0 with
            | Some p => ret (strict_eq (parent_id activity) (id p))
            | None => throw
            end) ;;
        Array_forEach childActivities (λ childComment _,
          Array_push parentActivity [childComment : TypesPullReqActivity])
    | None => ret tt
    end) ;;;
  Array_forEach parentActivities (λ parentActivity _,
    items <- Array_map parentActivity (λ a, ret (activityToCommentItem a)) ;;
    Array_push blocks [items]) ;;;
  (* Group title-change events into one single block *)
  titleChangeItems <- Array_filter blocks isTitleChangeBlock ;;
  Array_forEach titleChangeItems (λ value index,
    if decide (0 < index)%nat then
      first <- Array_index titleChangeItems 0 ;;
      match first with
      | Some b0 => vs <- @get CommentItem.t _ value ;; Array_push b0 vs
      | None => throw
      end
    else ret tt) ;;;
  @Array_shift loc _ titleChangeItems ;;;
  Array_filter blocks (λ _activities,
    b <- Array_includes titleChangeItems _activities ;; ret (negb b)).

(** Reading the result back: the blocks behind the returned array. *)
Definition readBlocks (l : loc) : JS (list (list CommentItem.t)) :=
  refs <- @get loc _ l ;;
  foldr (λ r k, b <- @get CommentItem.t _ r ;; bs <- k ;; ret (b :: bs)) (ret []) refs.

(** The assembler run on given fetched records and draft buffer, each placed
    in an array of its own. *)
Definition assemble (activities : option (list TypesPullReqActivity))
    (newComments : list TypesPullReqActivity) : option (list (list CommentItem.t)) :=
  let run :=
    drafts <- alloc newComments ;;
    acts <- match activities with
            | Some l => a <- alloc l ;; ret (Some a)
            | None => ret None
            end ;;
    out <- activityBlocks acts drafts ;;
    readBlocks out in
  fst <$> run [].

(** ** What the assembler computes, as list functions

    These are not a second model: [activityBlocks_run] below proves that the
    heap program returns exactly [assembled]. *)

(** [!activity.parent_id] *)
Definition is_root (activity : TypesPullReqActivity) : bool :=
  negb (truthy (parent_id activity)).

Definition children (acts : list TypesPullReqActivity) (r : TypesPullReqActivity)
  : list TypesPullReqActivity :=
  List.filter (λ a, strict_eq (parent_id a) (id r)) acts.

Definition thread (acts : list TypesPullReqActivity) (r : TypesPullReqActivity)
  : list TypesPullReqActivity :=
  r :: children acts r.

Definition is_title_change (a : TypesPullReqActivity) : bool :=
  bool_decide (kind a = "system"%string) && bool_decide (type a = CommentType_TITLE_CHANGE).

Definition isTitleChange (b : list CommentItem.t) : bool :=
  match b with
  | c :: _ => is_title_change (CommentItem.payload c)
  | [] => false
  end.

Definition draft_blocks (drafts : list TypesPullReqActivity) : list (list CommentItem.t) :=
  match drafts with
  | [] => []
  | _ => [map activityToCommentItem (orderBy_edited_desc drafts)]
  end.

Definition sorted_roots (acts : list TypesPullReqActivity) : list TypesPullReqActivity :=
  orderBy_edited_desc (List.filter is_root acts).

Definition root_blocks (acts : list TypesPullReqActivity) : list (list CommentItem.t) :=
  map (λ r, map activityToCommentItem (thread acts r)) (sorted_roots acts).

(** The first title-change block takes the elements of all later ones, which
    are removed. *)
Fixpoint coalesce (bs : list (list CommentItem.t)) : list (list CommentItem.t) :=
  match bs with
  | [] => []
  | b :: rest =>
      if isTitleChange b
      then (b ++ concat (List.filter isTitleChange rest))
             :: List.filter (λ x, negb (isTitleChange x)) rest
      else b :: coalesce rest
  end.

Definition assembled (acts drafts : list TypesPullReqActivity) : list (list CommentItem.t) :=
  coalesce (draft_blocks drafts ++ root_blocks acts).

(** ** The comment actions ([handleAction])

    The callbacks talk to the backend and to the user.  What they do is
    recorded as a list of events; what the outside answers (the user's choice
    in the confirmation dialog, the backend's reply to the one request an
    action makes) is an argument. *)

(** The three cases of the [switch] in [handleAction]. *)
Inductive CommentAction := DELETE | REPLY | UPDATE.

Inductive Event :=
| ConfirmDialog (message : string)
| POST_comment (text : string) (parent : option Z)
| PATCH_comment (comment : option Z) (text : string)
| DELETE_comment (comment : option Z)
| ShowError (message : string) (timeout : Z) (key : option string).

(** A promise returned by [useMutate]'s [mutate]: resolved with the record
    the backend sends, or rejected. *)
Inductive Response (Exception : Type) :=
| Resolved (newComment : TypesPullReqActivity)
| Rejected (exception : Exception).
Arguments Resolved {Exception} newComment.
Arguments Rejected {Exception} exception.

(** The callback's two local variables, the two pieces of React state of
    [Conversation], and the events so far. *)
Record Frame := {
  result : bool;
  updatedItem : option CommentItem.t;
  newComments : list TypesPullReqActivity;
  commentCreated : bool;
  events : list Event
}.

Definition Act (A : Type) : Type := Frame → A * Frame.

Definition act_ret {A} (a : A) : Act A := λ f, (a, f).

Definition act_bind {A B} (m : Act A) (k : A → Act B) : Act B :=
  λ f, let (a, f') := m f in k a f'.

Declare Scope act_scope.
Delimit Scope act_scope with act.
Notation "x <- m ;; k" := (act_bind m (λ x, k))
  (at level 100, m at next level, right associativity) : act_scope.
Notation "m ;;; k" := (act_bind m (λ _, k))
  (at level 100, right associativity) : act_scope.

Definition assign_result (b : bool) : Act unit :=
  λ f, (tt, {| result := b; updatedItem := updatedItem f; newComments := newComments f;
               commentCreated := commentCreated f; events := events f |}).

Definition assign_updatedItem (c : option CommentItem.t) : Act unit :=
  λ f, (tt, {| result := result f; updatedItem := c; newComments := newComments f;
               commentCreated := commentCreated f; events := events f |}).

Definition setNewComments (l : list TypesPullReqActivity) : Act unit :=
  λ f, (tt, {| result := result f; updatedItem := updatedItem f; newComments := l;
               commentCreated := commentCreated f; events := events f |}).

Definition setCommentCreated (b : bool) : Act unit :=
  λ f, (tt, {| result := result f; updatedItem := updatedItem f; newComments := newComments f;
               commentCreated := b; events := events f |}).

Definition emit (e : Event) : Act unit :=
  λ f, (tt, {| result := result f; updatedItem := updatedItem f; newComments := newComments f;
               commentCreated := commentCreated f; events := events f ++ [e] |}).

Section Gateway.

(** [utils/Utils.getErrorMessage] and [useStrings().getString] are imported
    helpers; the callbacks only pass their results on. *)
Context {Exception : Type}.
Variable getErrorMessage : Exception → string.
Variable getString : string → string.

(** What the outside answers during one action. *)
Variable confirmed : bool.
Variable response : Response Exception.

Definition showError (message : string) (timeout : Z) (key : option string) : Act unit :=
  emit (ShowError message timeout key).

(** [mutate(...).then(onResolved).catch(onRejected)] for a request [req]. *)
Definition mutate_then_catch (req : Event)
    (onResolved : TypesPullReqActivity → Act unit)
    (onRejected : Exception → Act unit) : Act unit :=
  (emit req ;;;
   match response with
   | Resolved newComment => onResolved newComment
   | Rejected exception => onRejected exception
   end)%act.

(** Modelled from the spec: [useConfirmAct] (hooks/useConfirmAction) is not
    among the sources.  The confirmation step is a precondition of the
    request: the dialog is shown, [action] runs if the user confirms and is
    not run if the user declines. *)
Definition confirmAct (message : string) (action : Act unit) : Act unit :=
  (emit (ConfirmDialog message) ;;;
   if confirmed then action else act_ret tt)%act.

(** [handleAction] of a thread's [CommentBox]; [threadId] is
    [blocks[0].payload?.id] of the block the box renders. *)
Definition handleAction (threadId : Z) (action : CommentAction) (value : string)
    (commentItem : option CommentItem.t) : Act (bool * option CommentItem.t) :=
  (assign_result true ;;;
   assign_updatedItem None ;;;
   let id := (λ c, id (CommentItem.payload c)) <$> commentItem in
   match action with
   | DELETE =>
       assign_result false ;;;
       confirmAct (getString "deleteCommentConfirm")
         (mutate_then_catch (DELETE_comment id)
            (λ _, assign_result true)
            (λ exception,
               assign_result false ;;;
               showError (getErrorMessage exception) 0
                 (Some (getString "pr.failedToDeleteComment"))))
   | REPLY =>
       mutate_then_catch (POST_comment value (Some threadId))
         (λ newComment, assign_updatedItem (Some (activityToCommentItem newComment)))
         (λ exception,
            assign_result false ;;;
            showError (getErrorMessage exception) 0
              (Some (getString "pr.failedToSaveComment")))
   | UPDATE =>
       mutate_then_catch (PATCH_comment id value)
         (λ newComment, assign_updatedItem (Some (activityToCommentItem newComment)))
         (λ exception,
            assign_result false ;;;
            showError (getErrorMessage exception) 0
              (Some (getString "pr.failedToSaveComment")))
   end ;;;
   f <- (λ f, (f, f)) ;;
   act_ret (result f, updatedItem f))%act.

(** [handleAction] of the [CommentBox] for a new top-level comment.  The
    closure holds the [newComments] of the render it was created in. *)
Definition handleAction_newComment (rendered_newComments : list TypesPullReqActivity)
    (value : string) : Act (bool * option CommentItem.t) :=
  (assign_result true ;;;
   assign_updatedItem None ;;;
   mutate_then_catch (POST_comment value None)
     (λ newComment,
        assign_updatedItem (Some (activityToCommentItem newComment)) ;;;
        setNewComments (rendered_newComments ++ [newComment]) ;;;
        setCommentCreated true)
     (λ exception,
        assign_result false ;;;
        showError (getErrorMessage exception) 0 None) ;;;
   f <- (λ f, (f, f)) ;;
   act_ret (result f, updatedItem f))%act.

End Gateway.

(** The page as the component last rendered it, nothing having happened yet. *)
Definition rendered (drafts : list TypesPullReqActivity) (created : bool) : Frame :=
  {| result := true; updatedItem := None; newComments := drafts;
     commentCreated := created; events := [] |}.

(** The error notifications among the events. *)
Definition notifications (evs : list Event) : list Event :=
  List.filter (λ e, match e with ShowError _ _ _ => true | _ => false end) evs.

(** The backend requests among the events. *)
Definition requests (evs : list Event) : list Event :=
  List.filter (λ e, match e with
                    | POST_comment _ _ | PATCH_comment _ _ | DELETE_comment _ => true
                    | _ => false
                    end) evs.

(** ** The status-check store ([CheckStore.Upsert]) *)

Module types.

Record CheckPayload := {
  Version : string;
  Kind : string;
  Data : string
}.

(** [types.Check] is declared in package types; these are the fields
    [mapInternalCheck] reads ([json.RawMessage] and the enums as strings). *)
Record Check := {
  ID : Z;
  CreatedBy : Z;
  Created : Z;
  Updated : Z;
  RepoID : Z;
  CommitSHA : string;
  UID : string;
  Status : string;
  Summary : string;
  Link : string;
  Metadata : string;
  Payload : CheckPayload
}.

End types.

Module database.

(** A row of table [checks]. *)
Record check := {
  ID : Z;
  CreatedBy : Z;
  Created : Z;
  Updated : Z;
  RepoID : Z;
  CommitSHA : string;
  UID : string;
  Status : string;
  Summary : string;
  Link : string;
  Payload : string;
  Metadata : string;
  PayloadKind : string;
  PayloadVersion : string
}.

Definition mapInternalCheck (c : types.Check) : check :=
  {| ID := types.ID c;
     CreatedBy := types.CreatedBy c;
     Created := types.Created c;
     Updated := types.Updated c;
     RepoID := types.RepoID c;
     CommitSHA := types.CommitSHA c;
     UID := types.UID c;
     Status := types.Status c;
     Summary := types.Summary c;
     Link := types.Link c;
     Payload := types.Data (types.Payload c);
     Metadata := types.Metadata c;
     PayloadKind := types.Kind (types.Payload c);
     PayloadVersion := types.Version (types.Payload c) |}.

(** Table [checks]: the unique index named by [ON CONFLICT] makes it a map
    from (check_repo_id, check_commit_sha, check_uid) to the row; [check_id]
    is drawn from a sequence. *)
Record table := {
  rows : gmap (Z * string * string) check;
  next_id : Z
}.

Definition natural_key (m : check) : Z * string * string :=
  (RepoID m, CommitSHA m, UID m).

(** [ON CONFLICT (...) DO UPDATE SET ...]: the eight columns listed in the
    statement are taken from the bound argument, the others are kept. *)
Definition do_update (old arg : check) : check :=
  {| ID := ID old;
     CreatedBy := CreatedBy old;
     Created := Created old;
     Updated := Updated arg;
     RepoID := RepoID old;
     CommitSHA := CommitSHA old;
     UID := UID old;
     Status := Status arg;
     Summary := Summary arg;
     Link := Link arg;
     Payload := Payload arg;
     Metadata := Metadata arg;
     PayloadKind := PayloadKind arg;
     PayloadVersion := PayloadVersion arg |}.

(** [INSERT INTO checks (...) VALUES (...)]: thirteen columns from the bound
    argument, [check_id] from the sequence. *)
Definition do_insert (fresh : Z) (arg : check) : check :=
  {| ID := fresh;
     CreatedBy := CreatedBy arg;
     Created := Created arg;
     Updated := Updated arg;
     RepoID := RepoID arg;
     CommitSHA := CommitSHA arg;
     UID := UID arg;
     Status := Status arg;
     Summary := Summary arg;
     Link := Link arg;
     Payload := Payload arg;
     Metadata := Metadata arg;
     PayloadKind := PayloadKind arg;
     PayloadVersion := PayloadVersion arg |}.

(** The statement of [Upsert], with its [RETURNING check_id,
    check_created_by, check_created]. *)
Definition sqlQuery (t : table) (arg : check) : table * (Z * Z * Z) :=
  let key := natural_key arg in
  match rows t !! key with
  | Some old =>
      let row := do_update old arg in
      ({| rows := <[key := row]> (rows t); next_id := next_id t |},
       (ID row, CreatedBy row, Created row))
  | None =>
      let row := do_insert (next_id t) arg in
      ({| rows := <[key := row]> (rows t); next_id := next_id t + 1 |},
       (ID row, CreatedBy row, Created row))
  end.

(** [Scan(&check.ID, &check.CreatedBy, &check.Created)] *)
Definition Scan (c : types.Check) (returned : Z * Z * Z) : types.Check :=
  let '(i, by_, at_) := returned in
  {| types.ID := i;
     types.CreatedBy := by_;
     types.Created := at_;
     types.Updated := types.Updated c;
     types.RepoID := types.RepoID c;
     types.CommitSHA := types.CommitSHA c;
     types.UID := types.UID c;
     types.Status := types.Status c;
     types.Summary := types.Summary c;
     types.Link := types.Link c;
     types.Metadata := types.Metadata c;
     types.Payload := types.Payload c |}.

(** [processSQLErrorf] is defined elsewhere in the package; what it returns
    is kept symbolic. *)
Inductive error := processSQLErrorf (err : string) (format : string).

(** [Upsert]: [failure] is the error, if any, with which the driver answers
    the query; the function then returns it wrapped and has changed nothing.
    ([BindNamed] binds a constant statement to a struct that has all the
    named columns.) *)
Definition Upsert (failure : option string) (t : table) (c : types.Check)
  : option error * table * types.Check :=
  match failure with
  | Some err => (Some (processSQLErrorf err "Upsert query failed"), t, c)
  | None =>
      let (t', returned) := sqlQuery t (mapInternalCheck c) in
      (None, t', Scan c returned)
  end.

End database.

(** ** Vocabulary of the properties *)

(** The fetched title-change system records that are thread roots. *)
Definition title_change_roots (records : list TypesPullReqActivity)
  : list TypesPullReqActivity :=
  List.filter (λ a, is_root a && is_title_change a) records.

(** Every element after the first names the first as its parent. *)
Definition thread_integrity (b : list CommentItem.t) : Prop :=
  match b with
  | [] => True
  | c0 :: replies =>
      Forall (λ c, parent_id (CommentItem.payload c) = Some (id (CommentItem.payload c0)))
             replies
  end.

(** [edited] of the record a block starts with. *)
Definition root_edited (b : list CommentItem.t) : Z :=
  match b with
  | c :: _ => edited (CommentItem.payload c)
  | [] => 0
  end.

(** Largest [edited] first. *)
Definition newest_first (l : list TypesPullReqActivity) : Prop :=
  StronglySorted (λ x y, edited y ≤ edited x) l.

(** ** Sample records *)

Definition title_50 : TypesPullReqActivity :=
  {| id := 1; parent_id := None; kind := "system"; type := "title_change";
     created := 50; edited := 50; author := "ann"; text := "" |}.

Definition title_200 : TypesPullReqActivity :=
  {| id := 2; parent_id := None; kind := "system"; type := "title_change";
     created := 200; edited := 200; author := "bob"; text := "" |}.

Definition comment_3 : TypesPullReqActivity :=
  {| id := 3; parent_id := None; kind := "comment"; type := "comment";
     created := 100; edited := 100; author := "ann"; text := "first" |}.

Definition reply_4 : TypesPullReqActivity :=
  {| id := 4; parent_id := Some 3; kind := "comment"; type := "comment";
     created := 110; edited := 110; author := "bob"; text := "lgtm" |}.

Definition draft_7 : TypesPullReqActivity :=
  {| id := 7; parent_id := None; kind := "comment"; type := "comment";
     created := 300; edited := 300; author := "ann"; text := "one" |}.

Definition draft_8 : TypesPullReqActivity :=
  {| id := 8; parent_id := None; kind := "comment"; type := "comment";
     created := 310; edited := 310; author := "ann"; text := "two" |}.

(** A record whose [parent_id] is the number 0. *)
Definition zero_parent_5 : TypesPullReqActivity :=
  {| id := 5; parent_id := Some 0; kind := "comment"; type := "comment";
     created := 120; edited := 120; author := "bob"; text := "stray" |}.

(** A stored status check, and a later report for the same key. *)
Definition stored_row : database.check :=
  {| database.ID := 41; database.CreatedBy := 7; database.Created := 1000;
     database.Updated := 1000; database.RepoID := 3; database.CommitSHA := "abc123";
     database.UID := "ci/build"; database.Status := "running"; database.Summary := "";
     database.Link := ""; database.Payload := "{}"; database.Metadata := "{}";
     database.PayloadKind := ""; database.PayloadVersion := "" |}.

Definition stored_table : database.table :=
  {| database.rows := {[ (3, "abc123"%string, "ci/build"%string) := stored_row ]};
     database.next_id := 42 |}.

Definition later_report : types.Check :=
  {| types.ID := 0; types.CreatedBy := 9; types.Created := 2000; types.Updated := 2000;
     types.RepoID := 3; types.CommitSHA := "abc123"; types.UID := "ci/build";
     types.Status := "success"; types.Summary := "built"; types.Link := "http://ci/1";
     types.Metadata := "{}";
     types.Payload := {| types.Version := "1"; types.Kind := "markdown";
                         types.Data := "ok" |} |}.

(** ** The status-check store: [List], [ListRecent], [mapCheck], [mapSliceCheck] *)

(** [ORDER BY]: rows are put in order by insertion; [before x y] says that
    [x] may stand in front of [y].  Rows that the order does not tell apart
    stay in the order of the scan. *)
Fixpoint insert_by {A} (before : A → A → bool) (x : A) (l : list A) : list A :=
  match l with
  | [] => [x]
  | y :: l' => if before x y then x :: y :: l' else y :: insert_by before x l'
  end.

Definition order_by {A} (before : A → A → bool) (l : list A) : list A :=
  foldr (insert_by before) [] l.

Module checks.

Section WithPrincipals.

(** [types.PrincipalInfo] and its zero value [types.PrincipalInfo{}]. *)
Context {PrincipalInfo : Type}.
Variable no_principal : PrincipalInfo.

(** [pCache.Map(ctx, ids)]: the principals known for the ids, or an error. *)
Variable pCache_Map : list Z → string + gmap Z PrincipalInfo.

(** The collation's order of [check_uid], for [ORDER BY check_uid]. *)
Variable uid_before : string → string → bool.

(** [types.Check] as [mapCheck] builds it: the fields of [types.Check]
    above, and [ReportedBy]. *)
Record Check := {
  base : types.Check;
  ReportedBy : PrincipalInfo
}.

Inductive error :=
| SQL (e : database.error)
| Errorf (format : string) (err : string).

Definition mapCheck (c : database.check) : Check :=
  {| base :=
       {| types.ID := database.ID c;
          types.CreatedBy := database.CreatedBy c;
          types.Created := database.Created c;
          types.Updated := database.Updated c;
          types.RepoID := database.RepoID c;
          types.CommitSHA := database.CommitSHA c;
          types.UID := database.UID c;
          types.Status := database.Status c;
          types.Summary := database.Summary c;
          types.Link := database.Link c;
          types.Metadata := database.Metadata c;
          types.Payload :=
            {| types.Version := database.PayloadVersion c;
               types.Kind := database.PayloadKind c;
               types.Data := database.Payload c |} |};
     ReportedBy := no_principal |}.

Definition mapSliceCheck (checks : list database.check) : error + list Check :=
  (* collect all principal IDs *)
  let ids := map database.CreatedBy checks in
  (* pull principal infos from cache *)
  match pCache_Map ids with
  | inl err => inl (Errorf "failed to load status check principal reporters: %w" err)
  | inr infoMap =>
      (* attach the principal infos back to the slice items *)
      inr (map (λ c,
                  let m := mapCheck c in
                  match infoMap !! database.CreatedBy c with
                  | Some reportedBy => {| base := base m; ReportedBy := reportedBy |}
                  | None => m
                  end) checks)
  end.

(** The rows of table [checks], in the order of a scan. *)
Definition scan (t : database.table) : list database.check :=
  (map_to_list (database.rows t)).*2.

(** What [SelectContext] puts into [dst] for the statement of [List]:
    the rows where [check_repo_id = repoID] and [check_commit_sha = commitSHA],
    ordered by [check_updated desc]. *)
Definition List_dst (t : database.table) (repoID : Z) (commitSHA : string)
  : list database.check :=
  order_by (λ x y, database.Updated y <=? database.Updated x)
    (List.filter (λ c, bool_decide (database.RepoID c = repoID) &&
                       bool_decide (database.CommitSHA c = commitSHA))
                 (scan t)).

(** [List]: [failure] is the error, if any, with which the driver answers
    the query. *)
Definition List (failure : option string) (t : database.table)
    (repoID : Z) (commitSHA : string) : error + list Check :=
  match failure with
  | Some err =>
      inl (SQL (database.processSQLErrorf err "Failed to execute list status checks query"))
  | None =>
      let dst := List_dst t repoID commitSHA in
      mapSliceCheck dst
  end.

(** [ListRecent]: [since] is [since.UnixMilli()]. *)
Definition ListRecent (failure : option string) (t : database.table)
    (repoID : Z) (since : Z) : error + list string :=
  match failure with
  | Some err =>
      inl (SQL (database.processSQLErrorf err
                  "Failed to execute list recent status checks query"))
  | None =>
      inr (order_by uid_before
             (remove_dups
                (map database.UID
                   (List.filter (λ c, bool_decide (database.RepoID c = repoID) &&
                                      (since <? database.Created c))
                                (scan t)))))
  end.

End WithPrincipals.

End checks.

(** The check [List] returns for a stored row, given the principals the
    cache knows: the row mapped by [mapCheck], with the reporter attached. *)
Definition listed {PrincipalInfo : Type} (no_principal : PrincipalInfo)
    (infoMap : gmap Z PrincipalInfo) (row : database.check) : checks.Check :=
  {| checks.base := checks.base (checks.mapCheck no_principal row);
     checks.ReportedBy := default no_principal (infoMap !! database.CreatedBy row) |}.

(** The rows of a table sit under their natural key, and every id is one the
    sequence has already given out, to one row only. *)
Definition table_ok (t : database.table) : Prop :=
  (∀ k row, database.rows t !! k = Some row →
     database.natural_key row = k ∧ database.ID row < database.next_id t) ∧
  (∀ k1 k2 r1 r2, database.rows t !! k1 = Some r1 → database.rows t !! k2 = Some r2 →
     database.ID r1 = database.ID r2 → k1 = k2).

(** The table before any report, and the table after a series of calls of
    [Upsert], each with the driver's answer to its query. *)
Definition empty_table : database.table :=
  {| database.rows := ∅; database.next_id := 1 |}.

Definition upsert_all (calls : list (option string * types.Check)) (t : database.table)
  : database.table :=
  foldl (λ t call, (database.Upsert call.1 t call.2).1.2) t calls.

(** A first report for a new commit. *)
Definition first_report : types.Check :=
  {| types.ID := 0; types.CreatedBy := 9; types.Created := 3000; types.Updated := 3000;
     types.RepoID := 3; types.CommitSHA := "def456"; types.UID := "ci/test";
     types.Status := "pending"; types.Summary := ""; types.Link := "";
     types.Metadata := "{}";
     types.Payload := {| types.Version := ""; types.Kind := ""; types.Data := "{}" |} |}.

(** A cache that knows principals 7 and 9 and answers for the ids it is
    asked, and one that cannot reach its backend: it answers only when it is
    asked for no id. *)
Definition cache_of_7_and_9 (ids : list Z) : string + gmap Z string :=
  inr (filter (λ kv : Z * string, kv.1 ∈ ids)
         ({[ 7 := "ann"%string; 9 := "bob"%string ]} : gmap Z string)).

Definition cache_down (ids : list Z) : string + gmap Z string :=
  match ids with
  | [] => inr ∅
  | _ => inl "cache down"%string
  end.

(** ** The blocks on the page: the [map] over [activityBlocks] in the JSX *)

(** Modelled from the spec: [CommentType.CODE_COMMENT] of DiffViewerUtils. *)
Definition CommentType_CODE_COMMENT : string := "code_comment"%string.

(** What the [map] callback returns for a block: a [SystemBox] or a
    [CommentBox], with the props that depend on the block.  [commentItems] is
    the block's array itself. *)
Inductive Element :=
| SystemBox_element (key : Z) (commentItems : loc)
| CommentBox_element (key : Z) (newCommentCreated : bool) (commentItems : loc)
    (codeCommentHeader : bool).

Definition element_key (e : Element) : Z :=
  match e with
  | SystemBox_element k _ => k
  | CommentBox_element k _ _ _ => k
  end.

Definition element_items (e : Element) : loc :=
  match e with
  | SystemBox_element _ l => l
  | CommentBox_element _ _ l _ => l
  end.

Definition element_highlighted (e : Element) : bool :=
  match e with
  | SystemBox_element _ _ => false
  | CommentBox_element _ hl _ _ => hl
  end.

Section Page.

(** [activity.payload?.type]: the tag inside a record's [payload] object,
    which the record type above does not spell out. *)
Variable payload_type : TypesPullReqActivity → option string.

(** [commentItems[0]?.payload?.payload?.type === CommentType.CODE_COMMENT] *)
Definition isCodeComment (commentItems : loc) : JS bool :=
  c0 <- Array_index commentItems 0 ;;
  ret (match c0 with
       | Some c => bool_decide (payload_type (CommentItem.payload c)
                                = Some CommentType_CODE_COMMENT)
       | None => false
       end).

(** [activityBlocks?.map((blocks, index) => ...)], for the current value of
    the [commentCreated] state. *)
Definition renderBlocks (commentCreated : bool) (activityBlocks : loc) : JS (list Element) :=
  n <- @Array_length loc _ activityBlocks ;;
  visit activityBlocks (λ blocks index,
    b0 <- Array_index blocks 0 ;;
    match b0 with
    | Some c =>
        let threadId := id (CommentItem.payload c) in
        system <- isSystemComment blocks ;;
        if system : bool then ret (SystemBox_element threadId blocks)
        else
          code <- isCodeComment blocks ;;
          ret (CommentBox_element threadId (commentCreated && bool_decide (index = O))
                 blocks code)
    | None => throw
    end) 0 n.

End Page.

(** The element [renderBlocks] builds at [index] for the array [r] holding
    the block [c :: rest]. *)
Definition element_for (payload_type : TypesPullReqActivity → option string)
    (commentCreated : bool) (index : nat) (r : loc) (c : CommentItem.t) : Element :=
  if bool_decide (kind (CommentItem.payload c) = "system"%string)
  then SystemBox_element (id (CommentItem.payload c)) r
  else CommentBox_element (id (CommentItem.payload c))
         (commentCreated && bool_decide (index = O)) r
         (bool_decide (payload_type (CommentItem.payload c) = Some CommentType_CODE_COMMENT)).

(** ** [DescriptionBox] *)

(** The fields of [pullRequestMetadata] the box reads. *)
Module PullReq.
Record t := {
  title : string;
  description : string;
  edited : Z
}.
End PullReq.

(** The four pieces of state of [DescriptionBox]. *)
Record DescriptionState := {
  edit : bool;
  updated : Z;
  originalContent : string;
  content : string
}.

Inductive DescriptionEvent :=
| PATCH_pullreq (title : string) (description : string)
| Description_showError (message : string) (timeout : Z) (key : string)
| refreshPullRequestMetadata.

(** What can happen to the box: the menu item is clicked, the editor saves a
    value (the request leaves), a save is resolved (at time [now], for
    [Date.now()]) or rejected, the editor is cancelled.  A response may
    arrive after any other step. *)
Inductive DescriptionStep (Exception : Type) :=
| ClickEdit
| ClickSave (value : string)
| SaveResolved (value : string) (now : Z)
| SaveRejected (exception : Exception)
| ClickCancel.
Arguments ClickEdit {Exception}.
Arguments ClickSave {Exception} value.
Arguments SaveResolved {Exception} value now.
Arguments SaveRejected {Exception} exception.
Arguments ClickCancel {Exception}.

Section DescriptionBox.

Context {Exception : Type}.
Variable getErrorMessage : Exception → string.
Variable getString : string → string.
Variable pullRequestMetadata : PullReq.t.

(** [useState(pullRequestMetadata.edited)], [useState(...description)], ... *)
Definition DescriptionBox_initial : DescriptionState :=
  {| edit := false;
     updated := PullReq.edited pullRequestMetadata;
     originalContent := PullReq.description pullRequestMetadata;
     content := PullReq.description pullRequestMetadata |}.

Definition DescriptionBox_step (s : DescriptionState * list DescriptionEvent)
    (step : DescriptionStep Exception) : DescriptionState * list DescriptionEvent :=
  let (st, evs) := s in
  match step with
  | ClickEdit =>
      ({| edit := true; updated := updated st;
          originalContent := originalContent st; content := content st |}, evs)
  | ClickSave value =>
      (st, evs ++ [PATCH_pullreq (PullReq.title pullRequestMetadata) value])
  | SaveResolved value now =>
      ({| edit := false; updated := now; originalContent := value; content := value |},
       evs ++ [refreshPullRequestMetadata])
  | SaveRejected exception =>
      (st, evs ++ [Description_showError (getErrorMessage exception) 0
                     (getString "pr.failedToUpdate")])
  | ClickCancel =>
      ({| edit := false; updated := updated st;
          originalContent := originalContent st; content := originalContent st |}, evs)
  end.

Definition DescriptionBox_run (steps : list (DescriptionStep Exception))
  : DescriptionState * list DescriptionEvent :=
  foldl DescriptionBox_step (DescriptionBox_initial, []) steps.

End DescriptionBox.

(** The value and the time of the last resolved save of a series of steps,
    starting from the description and the time the page was given. *)
Definition last_saved {Exception : Type} (pr : PullReq.t)
    (steps : list (DescriptionStep Exception)) : string * Z :=
  foldl (λ acc step,
           match step with
           | SaveResolved value now => (value, now)
           | _ => acc
           end)
        (PullReq.description pr, PullReq.edited pr) steps.

(** ** [useAnimateNewCommentBox] *)

(** The three callbacks handed to [window.setTimeout]; the second holds the
    [box] the first one found, if any. *)
Inductive Callback :=
| scroll_callback
| clear_callback (box : option nat)
| reset_callback.

Inductive DomEvent :=
| scrollIntoView (box : nat)
| classList_add_clear (box : nat)
| setCommentCreated_false.

#[global] Instance DomEvent_eq_dec : EqDecision DomEvent.
Proof. solve_decision. Defined.

(** One run of the effect: its variable [timeoutId], the window's timer
    counter, this effect's timers that are still pending, each with the time
    it is due and its callback, and what has been done, with the time. *)
Record Hook := {
  timeoutId : nat;
  counter : nat;
  pending : gmap nat (Z * Callback);
  done_at : list (Z * DomEvent)
}.

(** [timeoutId = window.setTimeout(callback, delay)], at time [now]; timer
    ids are positive. *)
Definition setTimeout (callback : Callback) (delay : Z) (now : Z) (k : Hook) : Hook :=
  {| timeoutId := S (counter k);
     counter := S (counter k);
     pending := <[S (counter k) := (now + delay, callback)]> (pending k);
     done_at := done_at k |}.

Definition did (now : Z) (e : DomEvent) (k : Hook) : Hook :=
  {| timeoutId := timeoutId k; counter := counter k; pending := pending k;
     done_at := done_at k ++ [(now, e)] |}.

(** The body of the effect, run at time [now]. *)
Definition useAnimateNewCommentBox (commentCreated : bool) (now : Z) (counter0 : nat) : Hook :=
  let k := {| timeoutId := 0; counter := counter0; pending := ∅; done_at := [] |} in
  if commentCreated then setTimeout scroll_callback 300 now k else k.

(** The browser runs the timer [id] at time [now], if it is pending and due;
    [query] is what [document.querySelector] finds then. *)
Definition fire (id : nat) (now : Z) (query : option nat) (k : Hook) : Hook :=
  match pending k !! id with
  | Some (due, callback) =>
      if due <=? now then
        let k := {| timeoutId := timeoutId k; counter := counter k;
                    pending := delete id (pending k); done_at := done_at k |} in
        match callback with
        | scroll_callback =>
            let k := match query with
                     | Some box => did now (scrollIntoView box) k
                     | None => k
                     end in
            setTimeout (clear_callback query) 5000 now k
        | clear_callback box =>
            let k := match box with
                     | Some b => did now (classList_add_clear b) k
                     | None => k
                     end in
            setTimeout reset_callback 2000 now k
        | reset_callback => did now setCommentCreated_false k
        end
      else k
  | None => k
  end.

(** The cleanup the effect returns: [clearTimeout(timeoutId)]. *)
Definition cleanup (k : Hook) : Hook :=
  {| timeoutId := timeoutId k; counter := counter k;
     pending := delete (timeoutId k) (pending k); done_at := done_at k |}.

Inductive HookStep :=
| Fire (id : nat) (now : Z) (query : option nat)
| Cleanup.

Definition hook_step (k : Hook) (step : HookStep) : Hook :=
  match step with
  | Fire id now query => fire id now query k
  | Cleanup => cleanup k
  end.

Definition hook_run (steps : list HookStep) (k : Hook) : Hook :=
  foldl hook_step k steps.

(** ** Heap assertions used by the proofs *)

(** Every cell of [h] is still there, unchanged, in [h']. *)
Definition extends (h h' : heap) : Prop :=
  ∀ l c, h !! l = Some c → h' !! l = Some c.

(** As [extends], except for the cells listed in [ms]. *)
Definition extends_except (ms : list loc) (h h' : heap) : Prop :=
  ∀ l c, h !! l = Some c → l ∉ ms → h' !! l = Some c.

(** The references [ps] point, in order, to arrays holding [vs]. *)
Definition cells {A} `{Elem A} (h : heap) (ps : list loc) (vs : list (list A)) : Prop :=
  Forall2 (λ p v, h !! p = Some (inj v)) ps vs.

(** The array at [lb] holds distinct references to the blocks [bs]. *)
Definition blocks_at (h : heap) (lb : loc) (refs : list loc)
    (bs : list (list CommentItem.t)) : Prop :=
  h !! lb = Some (RefArr refs) ∧ cells h refs bs ∧ NoDup refs.

(** The fetched records as the component sees them: an array, or [undefined]. *)
Definition input_at (h : heap) (activities : option loc)
    (acts : list TypesPullReqActivity) : Prop :=
  match activities with
  | Some a => h !! a = Some (ActivityArr acts)
  | None => acts = []
  end.

(** ** Lemmas on the monad and the heap *)

Lemma bind_eq {A B} (m : JS A) (k : A → JS B) h a h' :
  m h = Some (a, h') → bind m k h = k a h'.
Proof. unfold bind. by intros ->. Qed.

Lemma get_eq {A} `{Elem A} l (xs : list A) (h : heap) :
  h !! l = Some (inj xs) → get l h = Some (xs, h).
Proof. unfold get. intros ->. by rewrite proj_inj. Qed.

Lemma put_eq {A} `{Elem A} l (xs : list A) (h : heap) c :
  h !! l = Some c → put l xs h = Some (tt, <[l := inj xs]> h).
Proof.
  intros Hl. unfold put. apply lookup_lt_Some in Hl.
  by rewrite decide_True.
Qed.

Lemma Array_push_eq {A} `{Elem A} l (xs ys : list A) (h : heap) :
  h !! l = Some (inj xs) →
  Array_push l ys h = Some (tt, <[l := inj (xs ++ ys)]> h).
Proof.
  intros Hl. unfold Array_push.
  rewrite (bind_eq _ _ _ _ _ (get_eq _ _ _ Hl)). by eapply put_eq.
Qed.

Lemma Array_index_eq {A} `{Elem A} l (xs : list A) i (h : heap) :
  h !! l = Some (inj xs) → Array_index l i h = Some (xs !! i, h).
Proof.
  intros Hl. unfold Array_index. by rewrite (bind_eq _ _ _ _ _ (get_eq _ _ _ Hl)).
Qed.

Lemma Array_length_eq {A} `{Elem A} l (xs : list A) (h : heap) :
  h !! l = Some (inj xs) → @Array_length A _ l h = Some (length xs, h).
Proof.
  intros Hl. unfold Array_length. by rewrite (bind_eq _ _ _ _ _ (get_eq _ _ _ Hl)).
Qed.

(** Cells that survive an allocation and a store elsewhere. *)
Lemma lookup_alloc_old (h : heap) c l d :
  h !! l = Some c → (h ++ [d]) !! l = Some c.
Proof. intros. by apply lookup_app_l_Some. Qed.

Lemma lookup_alloc_new (h : heap) d : (h ++ [d]) !! length h = Some d.
Proof. by rewrite lookup_app_r, Nat.sub_diag. Qed.

Lemma lookup_store_eq (h : heap) l c d :
  h !! l = Some c → <[l := d]> h !! l = Some d.
Proof. intros Hl. apply list_lookup_insert_eq. by eapply lookup_lt_Some. Qed.

Lemma lookup_store_ne (h : heap) l l' c d :
  h !! l' = Some c → l ≠ l' → <[l := d]> h !! l' = Some c.
Proof. intros Hl Hne. by rewrite list_lookup_insert_ne. Qed.

(** A loop over an array whose cell the invariant pins down. *)
Lemma visit_rule {A B} `{Elem A} (xs : list A) (Inv : nat → heap → Prop)
    (Res : nat → B → Prop) l (f : A → nat → JS B) :
  (∀ k h, Inv k h → h !! l = Some (inj xs)) →
  (∀ k x h, xs !! k = Some x → Inv k h →
     ∃ y h', f x k h = Some (y, h') ∧ Inv (S k) h' ∧ Res k y) →
  ∀ n k h, (k + n = length xs)%nat → Inv k h →
  ∃ ys h', visit l f k n h = Some (ys, h') ∧ Inv (length xs) h' ∧
           length ys = n ∧ ∀ i y, ys !! i = Some y → Res (k + i)%nat y.
Proof.
  intros Hcell Hstep n. induction n as [|n IH]; intros k h Hk HI.
  - exists [], h. simpl. rewrite Nat.add_0_r in Hk. subst k. by repeat split.
  - simpl. rewrite (bind_eq _ _ _ _ _ (get_eq _ _ _ (Hcell _ _ HI))).
    destruct (lookup_lt_is_Some_2 xs k) as [x Hx]; [lia|]. rewrite Hx.
    destruct (Hstep _ _ _ Hx HI) as (y & h1 & Hf & HI1 & HR).
    rewrite (bind_eq _ _ _ _ _ Hf).
    destruct (IH (S k) h1) as (ys & h2 & Hv & HI2 & Hlen & HRs); [lia|done|].
    rewrite (bind_eq _ _ _ _ _ Hv). exists (y :: ys), h2.
    repeat split; [done|simpl; lia|].
    intros [|i] y'; simpl.
    + intros [= <-]. by rewrite Nat.add_0_r.
    + intros Hy. replace (k + S i)%nat with (S k + i)%nat by lia. by apply HRs.
Qed.

(** A loop whose callback only reads the heap. *)
Lemma visit_readonly {A B} `{Elem A} (xs : list A) l (f : A → nat → JS B)
    (g : A → nat → B) (h : heap) :
  h !! l = Some (inj xs) →
  (∀ k x, xs !! k = Some x → f x k h = Some (g x k, h)) →
  ∀ n k, (k + n = length xs)%nat →
  visit l f k n h = Some (imap (λ i x, g x (k + i)%nat) (drop k xs), h).
Proof.
  intros Hl Hf n. induction n as [|n IH]; intros k Hk.
  - simpl. rewrite drop_ge by lia. done.
  - simpl. rewrite (bind_eq _ _ _ _ _ (get_eq _ _ _ Hl)).
    destruct (lookup_lt_is_Some_2 xs k) as [x Hx]; [lia|]. rewrite Hx.
    rewrite (bind_eq _ _ _ _ _ (Hf _ _ Hx)).
    rewrite (bind_eq _ _ _ _ _ (IH (S k) ltac:(lia))).
    rewrite (drop_S _ _ _ Hx). simpl. unfold ret. rewrite Nat.add_0_r.
    do 3 f_equal. apply imap_ext. intros. simpl. f_equal. lia.
Qed.

Lemma imap_ignore_index {A B} (f : A → B) (xs : list A) :
  imap (λ _ x, f x) xs = map f xs.
Proof. apply (imap_const f). Qed.

Lemma Array_map_pure {A B} `{Elem A} `{Elem B} l (xs : list A) (f : A → B) (h : heap) :
  h !! l = Some (inj xs) →
  Array_map l (λ a, ret (f a)) h = Some (length h, h ++ [inj (map f xs)]).
Proof.
  intros Hl. unfold Array_map.
  rewrite (bind_eq _ _ _ _ _ (Array_length_eq _ _ _ Hl)).
  rewrite (bind_eq _ _ _ _ _
    (visit_readonly xs l _ (λ x _, f x) h Hl (λ _ _ _, eq_refl) (length xs) 0%nat eq_refl)).
  unfold alloc. simpl. rewrite drop_0, imap_ignore_index. done.
Qed.

Lemma concat_singletons_filter {A} (q : A → bool) (xs : list A) :
  concat (map (λ x, if q x then [x] else []) xs) = List.filter q xs.
Proof. induction xs as [|x xs IH]; simpl; [done|]. rewrite IH. by destruct (q x). Qed.

Lemma Array_filter_readonly {A} `{Elem A} l (xs : list A) (p : A → JS bool)
    (q : A → bool) (h : heap) :
  h !! l = Some (inj xs) →
  (∀ x, x ∈ xs → p x h = Some (q x, h)) →
  Array_filter l p h = Some (length h, h ++ [inj (List.filter q xs)]).
Proof.
  intros Hl Hp. unfold Array_filter.
  rewrite (bind_eq _ _ _ _ _ (Array_length_eq _ _ _ Hl)).
  erewrite bind_eq; cycle 1.
  { apply (visit_readonly xs l _ (λ x _, if q x then [x] else []) h Hl);
      [|reflexivity].
    intros k x Hx. cbv beta.
    by rewrite (bind_eq _ _ _ _ _ (Hp x (list_elem_of_lookup_2 _ _ _ Hx))). }
  unfold alloc. simpl. rewrite drop_0, imap_ignore_index, concat_singletons_filter. done.
Qed.

Lemma Array_forEach_rule {A} `{Elem A} (xs : list A) (Inv : nat → heap → Prop)
    l (f : A → nat → JS unit) (h : heap) :
  (∀ k h, Inv k h → h !! l = Some (inj xs)) →
  (∀ k x h, xs !! k = Some x → Inv k h →
     ∃ h', f x k h = Some (tt, h') ∧ Inv (S k) h') →
  Inv 0%nat h →
  ∃ h', Array_forEach l f h = Some (tt, h') ∧ Inv (length xs) h'.
Proof.
  intros Hcell Hstep HI. unfold Array_forEach.
  rewrite (bind_eq _ _ _ _ _ (Array_length_eq _ _ _ (Hcell _ _ HI))).
  destruct (visit_rule xs Inv (λ _ _, True) l f Hcell) with (n := length xs) (k := 0%nat) (h := h)
    as (ys & h' & Hv & HI' & _); [|done|done|].
  - intros k x h0 Hx HI0. destruct (Hstep _ _ _ Hx HI0) as (h1 & ? & ?).
    by exists tt, h1.
  - rewrite (bind_eq _ _ _ _ _ Hv). by exists h'.
Qed.

(** [cs.forEach(c => ps.push(c))] appends [cs] to [ps] when the arrays differ. *)
Lemma forEach_push {A} `{Elem A} lc lp (cs ps : list A) (h : heap) :
  h !! lc = Some (inj cs) → h !! lp = Some (inj ps) → lc ≠ lp →
  Array_forEach lc (λ c _, Array_push lp [c]) h = Some (tt, <[lp := inj (ps ++ cs)]> h).
Proof.
  intros Hc Hp Hne.
  destruct (Array_forEach_rule cs (λ k h', h' = <[lp := inj (ps ++ take k cs)]> h)
              lc (λ c _, Array_push lp [c]) h) as (h' & Hrun & ->).
  - intros k h' ->. by eapply lookup_store_ne.
  - intros k x h' Hx ->. eexists. split.
    + apply Array_push_eq. by eapply lookup_store_eq.
    + rewrite list_insert_insert_eq. by rewrite (take_S_r _ _ _ Hx), app_assoc.
  - simpl. rewrite app_nil_r. symmetry. by apply list_insert_id.
  - by rewrite Hrun, firstn_all.
Qed.

Lemma seq_characterised (ys : list nat) b n :
  length ys = n → (∀ i y, ys !! i = Some y → y = (b + i)%nat) → ys = seq b n.
Proof.
  intros Hlen Hys. apply list_eq. intros i.
  destruct (decide (i < n)%nat) as [Hi|Hi].
  - rewrite lookup_seq_lt by done.
    destruct (lookup_lt_is_Some_2 ys i) as [y Hy]; [lia|]. rewrite Hy. f_equal. eauto.
  - rewrite lookup_seq_ge by lia. apply lookup_ge_None. lia.
Qed.

(** [xs.map(c => [c])]: one fresh singleton per element, then the array of them. *)
Lemma Array_map_singletons {A} `{Elem A} l (xs : list A) (h : heap) :
  h !! l = Some (inj xs) →
  Array_map l (λ c, alloc [c]) h =
    Some ((length h + length xs)%nat,
          (h ++ map (λ c, inj [c]) xs) ++ [inj (seq (length h) (length xs))]).
Proof.
  intros Hl. unfold Array_map.
  rewrite (bind_eq _ _ _ _ _ (Array_length_eq _ _ _ Hl)).
  destruct (visit_rule xs (λ k h', h' = h ++ map (λ c, inj [c]) (take k xs))
              (λ k y, y = (length h + k)%nat) l (λ c (_ : nat), alloc [c]))
    with (n := length xs) (k := 0%nat) (h := h) as (ys & h' & Hv & -> & Hlen & Hys).
  - intros k h' ->. by apply lookup_app_l_Some.
  - intros k x h' Hx ->. eexists _, _. split; [reflexivity|]. split.
    + rewrite (take_S_r _ _ _ Hx), map_app, app_assoc. done.
    + rewrite length_app, length_map, length_take.
      apply lookup_lt_Some in Hx. lia.
  - done.
  - simpl. by rewrite app_nil_r.
  - rewrite (bind_eq _ _ _ _ _ Hv). unfold alloc. rewrite firstn_all.
    rewrite (seq_characterised ys (length h) (length xs) Hlen Hys).
    by rewrite length_app, length_map.
Qed.

(** ** The phases of [activityBlocks] *)

Lemma extends_refl (h : heap) : extends h h.
Proof. by intros l c. Qed.

Lemma extends_trans (h1 h2 h3 : heap) : extends h1 h2 → extends h2 h3 → extends h1 h3.
Proof. intros H12 H23 l c Hl. eauto. Qed.

Lemma extends_alloc (h : heap) c : extends h (h ++ [c]).
Proof. intros l d. apply lookup_alloc_old. Qed.

Lemma extends_except_fresh (ms : list loc) (h0 h h' : heap) :
  extends h0 h → extends_except ms h h' →
  (∀ l, l ∈ ms → (length h0 ≤ l)%nat) → extends h0 h'.
Proof.
  intros H0 Hex Hms l c Hl. apply Hex; [by apply H0|].
  intros Hin. apply Hms in Hin. apply lookup_lt_Some in Hl. lia.
Qed.

Lemma cells_lookup {A} `{Elem A} (h : heap) ps (vs : list (list A)) i p v :
  cells h ps vs → ps !! i = Some p → vs !! i = Some v → h !! p = Some (inj v).
Proof. intros Hc Hp Hv. by eapply (Forall2_lookup_lr _ _ _ _ _ _ Hc). Qed.

Lemma cells_extends {A} `{Elem A} (h h' : heap) ps (vs : list (list A)) :
  cells h ps vs → extends h h' → cells h' ps vs.
Proof. intros Hc He. eapply Forall2_impl; [exact Hc|]. intros p v. apply He. Qed.

Lemma cells_extends_except {A} `{Elem A} ms (h h' : heap) ps (vs : list (list A)) :
  cells h ps vs → extends_except ms h h' → (∀ p, p ∈ ps → p ∉ ms) → cells h' ps vs.
Proof.
  intros Hc He Hps. unfold cells in *.
  induction Hc as [|p v ps vs Hp Hc IH]; constructor.
  - apply He; [done|]. apply Hps. by left.
  - apply IH. intros q Hq. apply Hps. by right.
Qed.

(** Phase 2: each root array receives the records that name it as parent. *)
Lemma children_phase (h : heap) (activities : option loc) acts lpa ps rs :
  input_at h activities acts →
  h !! lpa = Some (RefArr ps) →
  cells h ps (map (λ r, [r]) rs) →
  NoDup ps →
  (∀ a, activities = Some a → a ∉ ps) →
  ∃ h',
    Array_forEach lpa (λ parentActivity _,
      match activities with
      | Some acts =>
          childActivities <-
            Array_filter acts (λ activity,
              p0 <- Array_index parentActivity 0 ;;
              match p0 with
              | Some p => ret (strict_eq (parent_id activity) (id p))
              | None => throw
              end) ;;
          Array_forEach childActivities (λ childComment _,
            Array_push parentActivity [childComment : TypesPullReqActivity])
      | None => ret tt
      end) h = Some (tt, h') ∧
    cells h' ps (map (thread acts) rs) ∧
    extends_except ps h h'.
Proof.
  intros Hin Hlpa Hcells Hnd Hla.
  assert (Hlen : length ps = length rs).
  { apply Forall2_length in Hcells. by rewrite length_map in Hcells. }
  set (Inv := λ (k : nat) (h' : heap),
    input_at h' activities acts ∧ h' !! lpa = Some (RefArr ps) ∧
    extends_except ps h h' ∧
    ∀ i p r, ps !! i = Some p → rs !! i = Some r →
      h' !! p = Some (ActivityArr (if decide (i < k)%nat then thread acts r else [r]))).
  edestruct (Array_forEach_rule ps Inv lpa) as (h' & Hrun & HI).
  3:{ (* the invariant holds on entry *)
      repeat split; [done..| |].
      - by intros l c.
      - intros i p r Hp Hr. rewrite decide_False by lia.
        eapply (cells_lookup _ _ _ _ _ _ Hcells Hp). by rewrite list_lookup_fmap, Hr. }
  3:{ exists h'. split; [exact Hrun|]. destruct HI as (_ & _ & Hex & Hall). split; [|done].
      apply Forall2_same_length_lookup. split; [by rewrite length_map|].
      intros i p t Hp Ht. rewrite list_lookup_fmap in Ht.
      destruct (rs !! i) as [r|] eqn:Hr; [|done]. injection Ht as <-.
      rewrite (Hall _ _ _ Hp Hr). rewrite decide_True; [done|].
      apply lookup_lt_Some in Hp. lia. }
  - by intros k h' (_ & ? & _).
  - intros k p h1 Hp (Hin1 & Hlpa1 & Hex1 & Hall1).
    destruct (lookup_lt_is_Some_2 rs k) as [r Hr].
    { apply lookup_lt_Some in Hp. lia. }
    pose proof (Hall1 _ _ _ Hp Hr) as Hpk. rewrite decide_False in Hpk by lia.
    destruct activities as [a|]; simpl in Hin1.
    + (* the records were fetched *)
      erewrite bind_eq; cycle 1.
      { eapply Array_filter_readonly
          with (q := λ activity, strict_eq (parent_id activity) (id r)); [exact Hin1|].
        intros x _. erewrite bind_eq; [|by eapply Array_index_eq]. done. }
      assert (Hne : length h1 ≠ p) by (apply lookup_lt_Some in Hpk; lia).
      rewrite (forEach_push (length h1) p (children acts r) [r]);
        [|apply lookup_alloc_new|by apply lookup_alloc_old|done].
      eexists. split; [reflexivity|].
      assert (Hap : a ≠ p).
      { intros ->. eapply Hla; [done|]. by eapply list_elem_of_lookup_2. }
      assert (Hlp : lpa ≠ p).
      { intros ->. rewrite Hlpa1 in Hpk. done. }
      repeat split.
      * simpl. eapply lookup_store_ne; [|done]. by apply lookup_alloc_old.
      * eapply lookup_store_ne; [|done]. by apply lookup_alloc_old.
      * intros l c Hl Hnot. eapply lookup_store_ne.
        -- apply lookup_alloc_old. by apply Hex1.
        -- intros <-. apply Hnot. by eapply list_elem_of_lookup_2.
      * intros i q r' Hq Hr'. destruct (decide (i = k)) as [->|Hik].
        -- assert (q = p) by congruence. assert (r' = r) by congruence. subst.
           rewrite decide_True by lia.
           eapply lookup_store_eq. by apply lookup_alloc_old.
        -- assert (p ≠ q).
           { intros ->. apply Hik. by eapply NoDup_lookup. }
           eapply lookup_store_ne; [|done]. apply lookup_alloc_old.
           rewrite (Hall1 _ _ _ Hq Hr'). repeat case_decide; (done || lia).
    + (* [activities] is undefined: there are no roots *)
      subst acts. eexists. split; [reflexivity|]. repeat split; [done..|].
      intros i q r' Hq Hr'. rewrite (Hall1 _ _ _ Hq Hr').
      repeat case_decide; (done || lia).
Qed.

Lemma Forall2_impl_elem {A B} (P Q : A → B → Prop) l k :
  Forall2 P l k → (∀ x y, x ∈ l → P x y → Q x y) → Forall2 Q l k.
Proof.
  intros HF. induction HF as [|x y l k Hxy HF IH]; intros HPQ; constructor.
  - apply HPQ; [by left|done].
  - apply IH. intros x' y' Hin. apply HPQ. by right.
Qed.

Lemma cells_lt {A} `{Elem A} (h : heap) ps (vs : list (list A)) p :
  cells h ps vs → p ∈ ps → (p < length h)%nat.
Proof.
  intros Hc Hp. apply list_elem_of_lookup in Hp as [i Hi].
  destruct (Forall2_lookup_l _ _ _ _ _ Hc Hi) as (v & _ & Hv).
  by eapply lookup_lt_Some.
Qed.

Lemma cells_app {A} `{Elem A} (h : heap) ps qs (vs ws : list (list A)) :
  cells h ps vs → cells h qs ws → cells h (ps ++ qs) (vs ++ ws).
Proof. apply Forall2_app. Qed.

(** Phase 3: every root array is mapped to a block and pushed on [blocks]. *)
Lemma blocks_phase (h : heap) lpa ps (ts : list (list TypesPullReqActivity))
    lb drefs dbs :
  h !! lpa = Some (RefArr ps) → cells h ps ts → blocks_at h lb drefs dbs → lpa ≠ lb →
  ∃ h' irefs,
    Array_forEach lpa (λ parentActivity _,
      items <- Array_map parentActivity (λ a, ret (activityToCommentItem a)) ;;
      Array_push lb [items]) h = Some (tt, h') ∧
    blocks_at h' lb (drefs ++ irefs) (dbs ++ map (map activityToCommentItem) ts) ∧
    extends_except [lb] h h' ∧
    (∀ r, r ∈ irefs → (length h ≤ r)%nat).
Proof.
  intros Hlpa Hps Hbl Hne.
  set (Inv := λ (k : nat) (h' : heap),
    h' !! lpa = Some (RefArr ps) ∧ cells h' ps ts ∧ extends_except [lb] h h' ∧
    (length h ≤ length h')%nat ∧
    ∃ irefs, (∀ r, r ∈ irefs → (length h ≤ r)%nat) ∧
             blocks_at h' lb (drefs ++ irefs)
               (dbs ++ take k (map (map activityToCommentItem) ts))).
  edestruct (Array_forEach_rule ps Inv lpa) as (h' & Hrun & HI).
  3:{ repeat split; [done..| |done|].
      - by intros l c.
      - exists []. split; [by intros r ?%elem_of_nil|]. simpl. by rewrite !app_nil_r. }
  3:{ destruct HI as (_ & _ & Hex & _ & irefs & Hfr & Hb). exists h', irefs.
      split; [exact Hrun|]. split; [|done].
      rewrite firstn_all2 in Hb; [done|].
      rewrite length_map. apply Forall2_length in Hps. lia. }
  - by intros k h' (? & _).
  - intros k p h1 Hp (Hlpa1 & Hps1 & Hex1 & Hlen1 & irefs & Hfr1 & Hlb1 & Hc1 & Hnd1).
    destruct (Forall2_lookup_l _ _ _ _ _ Hps1 Hp) as (t & Ht & Hpt).
    erewrite bind_eq; [|by eapply Array_map_pure].
    erewrite Array_push_eq; [|by apply lookup_alloc_old].
    eexists. split; [reflexivity|].
    assert (Hfresh : ∀ r, r ∈ drefs ++ irefs → r ≠ length h1 ∧ r ≠ lb).
    { intros r Hr. split.
      - pose proof (cells_lt _ _ _ _ Hc1 Hr). lia.
      - intros ->. apply list_elem_of_lookup in Hr as [i Hi].
        destruct (Forall2_lookup_l _ _ _ _ _ Hc1 Hi) as (v & _ & Hv).
        rewrite Hlb1 in Hv. done. }
    repeat split.
    + eapply lookup_store_ne; [|done]. by apply lookup_alloc_old.
    + eapply Forall2_impl; [exact Hps1|]. intros q v Hq. simpl in *.
      eapply lookup_store_ne; [by apply lookup_alloc_old|].
      intros ->. rewrite Hlb1 in Hq. done.
    + intros l c Hl Hnot. eapply lookup_store_ne.
      * apply lookup_alloc_old. by apply Hex1.
      * intros <-. apply Hnot. by left.
    + rewrite length_insert, length_app. lia.
    + exists (irefs ++ [length h1]). split; [|split; [|split]].
      * intros r [?|Hr]%elem_of_app; [by apply Hfr1|].
        apply list_elem_of_singleton in Hr. subst r. done.
      * rewrite app_assoc. eapply lookup_store_eq. by apply lookup_alloc_old.
      * rewrite (take_S_r _ _ (map activityToCommentItem t)), !app_assoc;
          [|by rewrite list_lookup_fmap, Ht].
        apply cells_app.
        -- eapply Forall2_impl_elem; [exact Hc1|]. intros r b Hin Hr. simpl.
           destruct (Hfresh r Hin). eapply lookup_store_ne; [by apply lookup_alloc_old|done].
        -- repeat constructor. simpl. eapply lookup_store_ne; [apply lookup_alloc_new|].
           apply lookup_lt_Some in Hlb1. lia.
      * rewrite app_assoc. apply NoDup_app. split; [done|]. split; [|apply NoDup_singleton].
        intros r Hr ->%list_elem_of_singleton. by destruct (Hfresh _ Hr).
Qed.

(** *** Title-change coalescing *)

Lemma elem_of_List_filter {A} (p : A → bool) (l : list A) x :
  x ∈ List.filter p l ↔ x ∈ l ∧ p x = true.
Proof. rewrite !list_elem_of_In. apply filter_In. Qed.

Lemma NoDup_List_filter {A} (p : A → bool) (l : list A) :
  NoDup l → NoDup (List.filter p l).
Proof.
  induction 1 as [|x l Hx Hl IH]; simpl; [constructor|].
  destruct (p x); [|done]. constructor; [|done].
  rewrite elem_of_List_filter. tauto.
Qed.

Lemma Forall2_List_filter {A B} (R : A → B → Prop) (q : A → bool) (p : B → bool) l k :
  Forall2 R l k → (∀ x y, x ∈ l → R x y → q x = p y) →
  Forall2 R (List.filter q l) (List.filter p k).
Proof.
  intros HF. induction HF as [|x y l k Hxy HF IH]; intros Hqp; simpl; [constructor|].
  rewrite (Hqp x y) by (done || by left).
  assert (Forall2 R (List.filter q l) (List.filter p k)).
  { apply IH. intros x' y' Hin. apply Hqp. by right. }
  destruct (p y); [by constructor|done].
Qed.

(** How the references kept by the last [filter] line up with [coalesce]:
    [R] reads a block before the coalescing loop, [R'] after it. *)
Lemma coalesce_pointwise (R R' : nat → list CommentItem.t → Prop) (q : nat → bool)
    (refs : list nat) (bs : list (list CommentItem.t)) :
  Forall2 R refs bs →
  NoDup refs →
  (∀ r b, r ∈ refs → R r b → q r = isTitleChange b) →
  (∀ t0 trest b0 cs, List.filter q refs = t0 :: trest →
     R t0 b0 → Forall2 R trest cs → R' t0 (b0 ++ concat cs)) →
  (∀ r b, r ∈ refs → R r b → head (List.filter q refs) ≠ Some r → R' r b) →
  Forall2 R'
    (List.filter (λ r, negb (bool_decide (r ∈ tail (List.filter q refs)))) refs)
    (coalesce bs).
Proof.
  intros HF. induction HF as [|r b refs bs Hrb HF IH]; intros Hnd Hq Hfirst Hother.
  { constructor. }
  apply NoDup_cons in Hnd as [Hr Hnd].
  assert (Hqr : q r = isTitleChange b) by (apply Hq; [by left|done]).
  assert (Hrtail : r ∉ tail (List.filter q refs)).
  { intros Hin. apply Hr.
    assert (r ∈ List.filter q refs) as Hin'.
    { destruct (List.filter q refs); [done|by right]. }
    by apply elem_of_List_filter in Hin' as [? _]. }
  simpl in *. destruct (isTitleChange b) eqn:Hb; rewrite Hqr in *; simpl.
  - (* the first title-change block: it takes all later ones *)
    rewrite bool_decide_eq_false_2; cycle 1.
    { rewrite elem_of_List_filter. tauto. }
    simpl. constructor.
    + eapply Hfirst; [done|done|].
      apply Forall2_List_filter; [done|]. intros x y Hx. apply Hq. by right.
    + replace (List.filter (λ r0, negb (bool_decide (r0 ∈ List.filter q refs))) refs)
        with (List.filter (λ r0, negb (q r0)) refs).
      * apply Forall2_impl with (P := λ x y, R x y ∧ R' x y); [|by intros x y [_ H']].
        apply Forall2_List_filter.
        -- eapply Forall2_impl_elem; [exact HF|]. intros x y Hx Hxy. split; [done|].
           apply Hother; [by right|done|]. intros [= ->]. done.
        -- intros x y Hx [Hxy _]. f_equal. apply Hq; [by right|done].
      * apply filter_ext_in. intros x Hx%list_elem_of_In. f_equal.
        destruct (q x) eqn:Hqx.
        -- symmetry. apply bool_decide_eq_true_2. by apply elem_of_List_filter.
        -- symmetry. apply bool_decide_eq_false_2. rewrite elem_of_List_filter.
           intros [_ ?]. congruence.
  - (* any other block stays where it is *)
    rewrite bool_decide_eq_false_2; cycle 1.
    { done. }
    simpl. constructor.
    + apply Hother; [by left|done|].
      destruct (List.filter q refs) as [|t l] eqn:Hf; [done|]. simpl. intros [= ->].
      apply Hr. assert (r ∈ List.filter q refs) as Hin by (rewrite Hf; by left).
      by apply elem_of_List_filter in Hin as [? _].
    + apply IH; [done| | |].
      * intros x y Hx. apply Hq. by right.
      * done.
      * intros x y Hx. apply Hother. by right.
Qed.

Lemma isTitleChangeBlock_eq (h : heap) r c b :
  h !! r = Some (ItemArr (c :: b)) →
  isTitleChangeBlock r h = Some (isTitleChange (c :: b), h).
Proof.
  intros Hr. unfold isTitleChangeBlock, isSystemComment.
  erewrite bind_eq; cycle 1.
  { erewrite bind_eq; [|by eapply Array_index_eq]. reflexivity. }
  simpl. unfold is_title_change.
  destruct (bool_decide (kind (CommentItem.payload c) = "system"%string)); [|done].
  erewrite bind_eq; [|by eapply Array_index_eq]. done.
Qed.

Lemma cells_functional {A} `{Elem A} (h : heap) ps (vs ws : list (list A)) :
  cells h ps vs → cells h ps ws → vs = ws.
Proof.
  intros Hv. revert ws. induction Hv as [|p v ps vs Hp Hv IH]; intros ws Hw.
  - by inversion Hw.
  - inversion Hw as [|? w ? ws' Hp' Hw']; subst. f_equal; [|by apply IH].
    rewrite Hp in Hp'. injection Hp' as Hp'.
    apply (f_equal proj) in Hp'. rewrite !proj_inj in Hp'. congruence.
Qed.

(** The loop that empties every later title-change block into the first. *)
Lemma absorb_loop (h1 : heap) lt tc (tcbs : list (list CommentItem.t)) :
  h1 !! lt = Some (RefArr tc) → NoDup tc → cells h1 tc tcbs →
  ∃ h2,
    Array_forEach lt (λ value index,
      if decide (0 < index)%nat then
        first <- Array_index lt 0 ;;
        match first with
        | Some b0 => vs <- @get CommentItem.t _ value ;; Array_push b0 vs
        | None => throw
        end
      else ret tt) h1 = Some (tt, h2) ∧
    h2 !! lt = Some (RefArr tc) ∧
    (∀ t0 trest b0 cs, tc = t0 :: trest → tcbs = b0 :: cs →
       h2 !! t0 = Some (ItemArr (b0 ++ concat cs))) ∧
    (∀ l c, h1 !! l = Some c → head tc ≠ Some l → h2 !! l = Some c).
Proof.
  intros Hlt Hnd Hcells.
  set (Inv := λ (k : nat) (h' : heap),
    h' !! lt = Some (RefArr tc) ∧
    (∀ t0 trest b0 cs, tc = t0 :: trest → tcbs = b0 :: cs →
       h' !! t0 = Some (ItemArr (b0 ++ concat (take (k - 1) cs)))) ∧
    (∀ l c, h1 !! l = Some c → head tc ≠ Some l → h' !! l = Some c)).
  edestruct (Array_forEach_rule tc Inv lt) as (h2 & Hrun & HI).
  3:{ split; [done|]. split; [|done].
      intros t0 trest b0 cs -> ->. simpl. rewrite app_nil_r.
      by inversion Hcells. }
  3:{ exists h2. split; [exact Hrun|]. destruct HI as (? & Hfirst & ?).
      split; [done|]. split; [|done].
      intros t0 trest b0 cs -> ->. erewrite Hfirst; [|done..].
      simpl. rewrite Nat.sub_0_r, firstn_all2; [done|].
      apply Forall2_length in Hcells. simpl in Hcells. lia. }
  - by intros k h' (? & _).
  - intros k value h' Hval (Hlt' & Hfirst & Hframe).
    destruct k as [|k]; simpl.
    { eexists. split; [reflexivity|]. done. }
    destruct tc as [|t0 trest]; [done|]. simpl in Hval.
    destruct tcbs as [|b0 cs]; [by inversion Hcells|].
    apply Forall2_cons in Hcells as [Hb0 Hcs].
    destruct (Forall2_lookup_l _ _ _ _ _ Hcs Hval) as (vs & Hvs & Hvalue).
    simpl in Hvalue.
    apply NoDup_cons in Hnd as [Ht0 Hnd].
    assert (Hne : t0 ≠ value).
    { intros ->. apply Ht0. by eapply list_elem_of_lookup_2. }
    erewrite bind_eq; [|by eapply Array_index_eq]. simpl.
    erewrite bind_eq; cycle 1.
    { eapply (get_eq (A := CommentItem.t)). apply Hframe; [exact Hvalue|].
      simpl. congruence. }
    erewrite Array_push_eq; [|by eapply (Hfirst t0 trest b0 cs)].
    eexists. split; [reflexivity|].
    assert (lt ≠ t0).
    { intros ->. specialize (Hfirst _ _ _ _ eq_refl eq_refl). rewrite Hlt' in Hfirst. done. }
    split; [|split].
    + by eapply lookup_store_ne.
    + intros ? ? ? ? [= <- <-] [= <- <-].
      erewrite lookup_store_eq; [|by eapply (Hfirst t0 trest b0 cs)].
      replace (S (S k) - 1)%nat with (S k) by lia.
      replace (S k - 1)%nat with k by lia.
      rewrite (take_S_r _ _ _ Hvs), concat_app. simpl.
      by rewrite app_nil_r, app_assoc.
    + intros l c Hl Hhd. eapply lookup_store_ne; [by apply Hframe|].
      simpl in Hhd. congruence.
Qed.

Lemma Array_includes_eq (h : heap) l (xs : list nat) r :
  h !! l = Some (RefArr xs) → Array_includes l r h = Some (bool_decide (r ∈ xs), h).
Proof.
  intros Hl. unfold Array_includes.
  erewrite bind_eq; [|by eapply (get_eq (A := nat))]. done.
Qed.

Lemma Array_shift_eq {A} `{Elem A} (h : heap) l (xs : list A) :
  h !! l = Some (inj xs) →
  ∃ h', Array_shift l h = Some (head xs, h') ∧ h' !! l = Some (inj (tail xs)) ∧
        ∀ l' c, h !! l' = Some c → l' ≠ l → h' !! l' = Some c.
Proof.
  intros Hl. unfold Array_shift. rewrite (bind_eq _ _ _ _ _ (get_eq _ _ _ Hl)).
  destruct xs as [|x xs]; simpl.
  - exists h. by repeat split.
  - erewrite bind_eq; [|by eapply put_eq]. eexists. split; [reflexivity|]. split.
    + by eapply lookup_store_eq.
    + intros l' c Hl' Hne. by eapply lookup_store_ne.
Qed.

(** Phase 4: the title-change blocks are gathered, merged and filtered out. *)
Lemma coalesce_phase (h : heap) lb refs bs :
  blocks_at h lb refs bs → Forall (λ b, b ≠ []) bs →
  ∃ out h' refs',
    (titleChangeItems <- Array_filter lb isTitleChangeBlock ;;
     Array_forEach titleChangeItems (λ value index,
       if decide (0 < index)%nat then
         first <- Array_index titleChangeItems 0 ;;
         match first with
         | Some b0 => vs <- @get CommentItem.t _ value ;; Array_push b0 vs
         | None => throw
         end
       else ret tt) ;;;
     @Array_shift loc _ titleChangeItems ;;;
     Array_filter lb (λ _activities,
       b <- Array_includes titleChangeItems _activities ;; ret (negb b))) h
      = Some (out, h') ∧
    blocks_at h' out refs' (coalesce bs) ∧
    extends_except refs h h' ∧
    (length h < out)%nat ∧ (∀ r, r ∈ refs' → r ∈ refs).
Proof.
  intros (Hlb & Hcells & Hnd) Hne.
  set (q := λ r : nat, match h !! r with
                       | Some (ItemArr b) => isTitleChange b
                       | _ => false
                       end).
  set (R := λ (r : nat) (b : list CommentItem.t), h !! r = Some (ItemArr b)).
  assert (Hq : ∀ r b, r ∈ refs → R r b → q r = isTitleChange b).
  { intros r b _ Hr. unfold q. by rewrite Hr. }
  set (tc := List.filter q refs).
  (* the title-change blocks *)
  erewrite bind_eq; cycle 1.
  { eapply (Array_filter_readonly (A := nat)) with (q := q); [exact Hlb|].
    intros r Hr. apply list_elem_of_lookup in Hr as [i Hi].
    destruct (Forall2_lookup_l _ _ _ _ _ Hcells Hi) as (b & Hb & Hrb). simpl in Hrb.
    destruct b as [|c b].
    { exfalso. eapply Forall_lookup_1 in Hne; [|exact Hb]. done. }
    rewrite (isTitleChangeBlock_eq _ _ _ _ Hrb). unfold q. by rewrite Hrb. }
  fold tc. set (lt := length h). set (h1 := h ++ [RefArr tc]).
  assert (Htc : cells h1 tc (List.filter isTitleChange bs)).
  { apply Forall2_impl with (P := R); [|intros r b; apply lookup_alloc_old].
    by apply Forall2_List_filter. }
  assert (Hsub : ∀ r, r ∈ tc → r ∈ refs).
  { intros r Hr. by apply elem_of_List_filter in Hr as [? _]. }
  destruct (absorb_loop h1 lt tc _ (lookup_alloc_new _ _) (NoDup_List_filter _ _ Hnd) Htc)
    as (h2 & Hloop & Hlt2 & Hfirst2 & Hframe2).
  rewrite (bind_eq _ _ _ _ _ Hloop).
  destruct (Array_shift_eq (H := Elem_ref) h2 lt tc Hlt2) as (h3 & Hshift & Hlt3 & Hframe3).
  rewrite (bind_eq _ _ _ _ _ Hshift).
  (* what the heap looks like before the last [filter] *)
  assert (Hold : ∀ l c, h !! l = Some c → head tc ≠ Some l → h3 !! l = Some c).
  { intros l c Hl Hhd. apply Hframe3.
    - apply Hframe2; [by apply lookup_alloc_old|done].
    - apply lookup_lt_Some in Hl. unfold lt. lia. }
  assert (Hhead : ∀ t, head tc = Some t → ∃ b, h !! t = Some (ItemArr b)).
  { intros t Ht. assert (t ∈ refs) as Hin.
    { apply Hsub. destruct tc; [done|]. injection Ht as ->. by left. }
    apply list_elem_of_lookup in Hin as [i Hi].
    destruct (Forall2_lookup_l _ _ _ _ _ Hcells Hi) as (b & _ & Hb). exists b. exact Hb. }
  assert (Hlb3 : h3 !! lb = Some (RefArr refs)).
  { apply Hold; [done|]. intros Ht. destruct (Hhead _ Ht) as [b Hb].
    rewrite Hlb in Hb. done. }
  erewrite Array_filter_readonly
    with (q := λ r, negb (bool_decide (r ∈ tail tc))); [|exact Hlb3|]; cycle 1.
  { intros r _. by rewrite (bind_eq _ _ _ _ _ (Array_includes_eq _ _ _ r Hlt3)). }
  eexists _, _, _. split; [reflexivity|]. split; [split; [|split]|split; [|split]].
  - apply lookup_alloc_new.
  - apply (coalesce_pointwise R); [done|done|done| |].
    + intros t0 trest b0 cs Heq Hb0 Hcs. apply lookup_alloc_old.
      fold tc in Heq.
      assert (List.filter isTitleChange bs = b0 :: cs) as Hbs.
      { eapply cells_functional; [exact Htc|]. rewrite Heq. constructor.
        - by apply lookup_alloc_old.
        - eapply Forall2_impl; [exact Hcs|]. intros r b. apply lookup_alloc_old. }
      pose proof (Hfirst2 _ _ _ _ Heq Hbs) as Ht0.
      apply Hframe3; [done|]. intros ->. rewrite Hlt2 in Ht0. done.
    + intros r b _ Hrb Hhd. apply lookup_alloc_old. by apply Hold.
  - by apply NoDup_List_filter.
  - intros l c Hl Hnot. apply lookup_alloc_old. apply Hold; [done|].
    intros Ht. apply Hnot, Hsub. destruct tc; [done|]. injection Ht as ->. by left.
  - apply lookup_lt_Some in Hlt3. done.
  - intros r Hr. by apply elem_of_List_filter in Hr as [? _].
Qed.

Lemma orderBy_eq (h : heap) l xs :
  h !! l = Some (ActivityArr xs) →
  orderBy l h = Some (length h, h ++ [ActivityArr (orderBy_edited_desc xs)]).
Proof.
  intros Hl. unfold orderBy.
  erewrite bind_eq; [|by eapply (get_eq (A := TypesPullReqActivity))]. done.
Qed.

(** Phase 1: the draft buffer, when it is not empty, becomes one block. *)
Lemma drafts_phase (h : heap) ln drafts lb :
  h !! ln = Some (ActivityArr drafts) → h !! lb = Some (RefArr []) →
  ∃ h' drefs,
    (if decide (length drafts = O) then ret tt
     else
       sorted <- orderBy ln ;;
       items <- Array_map sorted (λ a, ret (activityToCommentItem a)) ;;
       Array_push lb [items]) h = Some (tt, h') ∧
    blocks_at h' lb drefs (draft_blocks drafts) ∧
    extends_except [lb] h h' ∧
    (∀ r, r ∈ drefs → (length h ≤ r)%nat) ∧
    (length h ≤ length h')%nat.
Proof.
  intros Hln Hlb. case_decide as Hn.
  - exists h, []. destruct drafts; [|done]. repeat split; try done.
    + constructor.
    + constructor.
    + by intros l c.
    + by intros r ?%elem_of_nil.
  - rewrite (bind_eq _ _ _ _ _ (orderBy_eq _ _ _ Hln)).
    erewrite bind_eq; [|eapply (Array_map_pure (A := TypesPullReqActivity)); apply lookup_alloc_new].
    erewrite (Array_push_eq (A := nat)); [|by do 2 apply lookup_alloc_old].
    eexists _, [_]. split; [reflexivity|].
    assert (lb < length h)%nat by by eapply lookup_lt_Some.
    destruct drafts as [|d drafts]; [done|]. unfold draft_blocks.
    repeat split.
    + eapply lookup_store_eq. by do 2 apply lookup_alloc_old.
    + repeat constructor. simpl. eapply lookup_store_ne; [apply lookup_alloc_new|].
      rewrite length_app. simpl. lia.
    + apply NoDup_singleton.
    + intros l c Hl Hnot. eapply lookup_store_ne; [by do 2 apply lookup_alloc_old|].
      intros <-. apply Hnot. by left.
    + intros r ->%list_elem_of_singleton. rewrite length_app. simpl. lia.
    + rewrite length_insert, !length_app. simpl. lia.
Qed.

Lemma cells_fresh_block {A} `{Elem A} (h k : heap) (vs : list (list A)) :
  cells ((h ++ map inj vs) ++ k) (seq (length h) (length vs)) vs.
Proof.
  apply Forall2_same_length_lookup. split; [by rewrite length_seq|].
  intros i p v Hp Hv. apply lookup_seq in Hp as [-> Hi].
  apply lookup_app_l_Some. rewrite lookup_app_r by lia.
  replace (length h + i - length h)%nat with i by lia.
  by rewrite list_lookup_fmap, Hv.
Qed.

(** [orderBy] permutes its argument. *)
Lemma insert_desc_perm x l : insert_desc x l ≡ₚ x :: l.
Proof.
  induction l as [|y l IH]; simpl; [done|].
  destruct (edited y <=? edited x); [done|]. rewrite IH. apply Permutation_swap.
Qed.

Lemma orderBy_edited_desc_perm l : orderBy_edited_desc l ≡ₚ l.
Proof.
  induction l as [|x l IH]; simpl; [done|].
  rewrite insert_desc_perm. by rewrite IH.
Qed.

Lemma thread_blocks_nonempty acts drafts :
  Forall (λ b, b ≠ []) (draft_blocks drafts ++ root_blocks acts).
Proof.
  apply Forall_app. split.
  - destruct drafts as [|d ds]; [constructor|]. repeat constructor.
    intros Hnil%(f_equal length). rewrite length_map in Hnil.
    rewrite (Permutation_length (orderBy_edited_desc_perm _)) in Hnil. done.
  - unfold root_blocks. apply Forall_fmap, Forall_true. intros r. done.
Qed.

(** The heap program returns the blocks [assembled] describes, in fresh
    arrays, and leaves every array it was given as it found it. *)
Theorem activityBlocks_run (h : heap) (activities : option loc) (newComments : loc)
    (acts drafts : list TypesPullReqActivity) :
  h !! newComments = Some (ActivityArr drafts) →
  input_at h activities acts →
  ∃ out h' refs,
    activityBlocks activities newComments h = Some (out, h') ∧
    extends h h' ∧
    blocks_at h' out refs (assembled acts drafts) ∧
    (∀ r, r ∈ out :: refs → (length h ≤ r)%nat).
Proof.
  intros Hln Hin. unfold activityBlocks.
  (* const blocks = [] *)
  erewrite bind_eq with (a := length h) (h' := h ++ [RefArr []]); [|reflexivity].
  set (lb := length h).
  erewrite bind_eq; [|eapply (Array_length_eq (A := TypesPullReqActivity));
                      by apply lookup_alloc_old].
  destruct (drafts_phase (h ++ [RefArr []]) newComments drafts lb)
    as (hA & drefs & HrunA & HblA & HexA & HfreshA & HlenA);
    [by apply lookup_alloc_old|apply lookup_alloc_new|].
  rewrite (bind_eq _ _ _ _ _ HrunA). clear HrunA.
  rewrite length_app in HfreshA, HlenA. simpl in HfreshA, HlenA. fold lb in HfreshA, HlenA.
  assert (HextA : extends h hA).
  { apply (extends_except_fresh [lb] h (h ++ [RefArr []])); [apply extends_alloc|done|].
    intros l ->%list_elem_of_singleton. done. }
  (* the roots, ordered *)
  set (rs := sorted_roots acts).
  set (hC := (hA ++ [ActivityArr (List.filter is_root acts)]) ++ [ActivityArr rs]).
  erewrite bind_eq with (a := length hA)
                        (h' := hA ++ [ActivityArr (List.filter is_root acts)]); cycle 1.
  { destruct activities as [a|]; simpl in Hin.
    - apply (Array_filter_readonly (H := Elem_activity) a acts _ is_root hA);
        [by apply HextA|done].
    - by subst acts. }
  rewrite (bind_eq _ _ _ _ _ (orderBy_eq _ _ _ (lookup_alloc_new _ _))).
  fold rs. fold hC.
  erewrite bind_eq;
    [|eapply (Array_map_singletons (A := TypesPullReqActivity)); apply lookup_alloc_new].
  set (ps := seq (length hC) (length rs)).
  set (lpa := (length hC + length rs)%nat).
  set (hD := (hC ++ map (λ c, inj [c]) rs) ++ [inj ps]).
  assert (HlenC : (length hC = length hA + 2)%nat).
  { unfold hC. rewrite !length_app. simpl. lia. }
  assert (HextD : extends hA hD).
  { intros l c Hl. unfold hD, hC. by do 4 apply lookup_app_l_Some. }
  assert (Hps : ∀ p, p ∈ ps → (length hC ≤ p < lpa)%nat).
  { intros p Hp. apply elem_of_seq in Hp. unfold lpa. lia. }
  assert (HlpaD : hD !! lpa = Some (RefArr ps)).
  { unfold hD. rewrite lookup_app_r; rewrite length_app, length_map; [|unfold lpa; lia].
    unfold lpa. by rewrite Nat.sub_diag. }
  (* the children *)
  destruct (children_phase hD activities acts lpa ps rs)
    as (hE & HrunE & HcellsE & HexE).
  { destruct activities; simpl in *; [|done]. by apply HextD, HextA. }
  { done. }
  { unfold hD, ps. rewrite <- (length_map (λ r : TypesPullReqActivity, [r]) rs).
    replace (map (λ c, inj [c]) rs) with (map inj (map (λ r : TypesPullReqActivity, [r]) rs))
      by (by rewrite map_map).
    apply cells_fresh_block. }
  { apply NoDup_seq. }
  { intros a -> Ha%Hps. simpl in Hin. apply lookup_lt_Some in Hin. lia. }
  rewrite (bind_eq _ _ _ _ _ HrunE). clear HrunE.
  (* the blocks *)
  destruct (blocks_phase hE lpa ps (map (thread acts) rs) lb drefs (draft_blocks drafts))
    as (hF & irefs & HrunF & HblF & HexF & HfreshF).
  { apply HexE; [done|]. intros Hp%Hps. lia. }
  { done. }
  { destruct HblA as (HlbA & HcA & HndA). split; [|split; [|done]].
    - apply HexE; [by apply HextD|]. intros Hp%Hps. unfold lb in *. lia.
    - eapply cells_extends_except; [|exact HexE|].
      + eapply cells_extends; [exact HcA|exact HextD].
      + intros r Hr Hp%Hps. pose proof (cells_lt _ _ _ _ HcA Hr). lia.  }
  { unfold lpa, lb in *. lia. }
  rewrite (bind_eq _ _ _ _ _ HrunF). clear HrunF.
  (* the title changes *)
  destruct (coalesce_phase hF lb (drefs ++ irefs)
              (draft_blocks drafts ++ root_blocks acts))
    as (out & hG & refs & HrunG & HblG & HexG & Hout & Hrefs).
  { unfold root_blocks. fold rs. by rewrite <- map_map. }
  { apply thread_blocks_nonempty. }
  rewrite HrunG. exists out, hG, refs. split; [done|].
  assert (HlenDE : ∀ l, (l < length hD)%nat → (l < length hE)%nat).
  { intros l Hl. destruct (lookup_lt_is_Some_2 hD l Hl) as [c Hc].
    destruct (decide (l ∈ ps)) as [Hp|Hp].
    - eapply (cells_lt (H := Elem_activity)); [exact HcellsE|done].
    - eapply lookup_lt_Some. by apply HexE. }
  assert (Hext : extends h hG).
  { eapply extends_except_fresh; [|exact HexG|]; cycle 1.
    { intros l [Hl|Hl]%elem_of_app.
      - apply HfreshA in Hl. lia.
      - apply HfreshF in Hl.
        assert (length hD ≤ length hE)%nat.
        { destruct (decide (length hD ≤ length hE)%nat); [done|].
          pose proof (HlenDE (length hE)). lia. }
        unfold hD in *. rewrite !length_app in *. lia. }
    eapply extends_except_fresh; [|exact HexF|]; cycle 1.
    { intros l ->%list_elem_of_singleton. done. }
    eapply extends_except_fresh; [|exact HexE|]; cycle 1.
    { intros l Hl%Hps. lia. }
    eapply extends_trans; [exact HextA|exact HextD]. }
  split; [done|]. split; [done|].
  assert (length h ≤ length hF)%nat as HlenF.
  { destruct HblF as (HlbF & _). apply lookup_lt_Some in HlbF. unfold lb in HlbF. lia. }
  intros r [->|Hr%Hrefs]%elem_of_cons; [lia|].
  apply elem_of_app in Hr as [Hr|Hr].
  - apply HfreshA in Hr. lia.
  - apply HfreshF in Hr. pose proof (HlenDE (length h)) as Hh.
    unfold hD in Hh. rewrite !length_app in Hh. simpl in Hh.
    destruct (decide (length h < length hE)%nat); [lia|].
    pose proof (HlenDE (length hE)) as Hh'.
    unfold hD in Hh'. rewrite !length_app in Hh'. simpl in Hh'. lia.
Qed.

Lemma readBlocks_eq (h : heap) l refs bs :
  blocks_at h l refs bs → readBlocks l h = Some (bs, h).
Proof.
  intros (Hl & Hcells & _). unfold readBlocks.
  erewrite bind_eq; [|by eapply (get_eq (H := Elem_ref))].
  clear Hl. induction Hcells as [|r b refs bs Hr _ IH]; simpl; [done|].
  erewrite bind_eq; [|by eapply (get_eq (H := Elem_item))].
  by rewrite (bind_eq _ _ _ _ _ IH).
Qed.

(** The assembler returns, and what it returns is [assembled]. *)
Lemma assemble_eq (activities : option (list TypesPullReqActivity)) drafts :
  assemble activities drafts = Some (assembled (default [] activities) drafts).
Proof.
  unfold assemble.
  erewrite bind_eq with (a := O) (h' := [ActivityArr drafts]); [|reflexivity].
  destruct activities as [acts|]; simpl.
  - erewrite bind_eq with (a := Some 1%nat) (h' := [ActivityArr drafts; ActivityArr acts]);
      [|reflexivity].
    destruct (activityBlocks_run [ActivityArr drafts; ActivityArr acts] (Some 1%nat) O acts drafts)
      as (out & h' & refs & Hrun & _ & Hbl & _); [done..|].
    rewrite (bind_eq _ _ _ _ _ Hrun). by rewrite (readBlocks_eq _ _ _ _ Hbl).
  - erewrite bind_eq with (a := None) (h' := [ActivityArr drafts]); [|reflexivity].
    destruct (activityBlocks_run [ActivityArr drafts] None O [] drafts)
      as (out & h' & refs & Hrun & _ & Hbl & _); [done..|].
    rewrite (bind_eq _ _ _ _ _ Hrun). by rewrite (readBlocks_eq _ _ _ _ Hbl).
Qed.

(** The scenarios of the specification. *)
Example reply_joins_its_root :
  assemble (Some [comment_3; reply_4]) []
    = Some [map activityToCommentItem [comment_3; reply_4]].
Proof. reflexivity. Qed.

Example title_changes_newest_first :
  assemble (Some [title_50; title_200]) []
    = Some [map activityToCommentItem [title_200; title_50]].
Proof. reflexivity. Qed.

Example nothing_fetched_yet : assemble None [] = Some [].
Proof. reflexivity. Qed.

Example all_kinds_together :
  assemble (Some [reply_4; title_50; zero_parent_5; comment_3; title_200])
           [draft_7; draft_8]
    = Some [map activityToCommentItem [draft_8; draft_7];
            map activityToCommentItem [title_200; title_50];
            map activityToCommentItem [zero_parent_5];
            map activityToCommentItem [comment_3; reply_4]].
Proof. reflexivity. Qed.

(** ** Facts about [orderBy], [coalesce] and the threads *)

Lemma insert_desc_sorted x l : newest_first l → newest_first (insert_desc x l).
Proof.
  unfold newest_first. induction 1 as [|y l Hl IH Hy]; simpl.
  - repeat constructor.
  - destruct (Z.leb_spec (edited y) (edited x)) as [Hle|Hlt].
    + constructor; [by constructor|]. constructor; [done|].
      eapply Forall_impl; [exact Hy|]. simpl. intros z Hz. lia.
    + constructor; [done|]. rewrite insert_desc_perm. constructor; [lia|done].
Qed.

Lemma orderBy_edited_desc_sorted l : newest_first (orderBy_edited_desc l).
Proof.
  induction l as [|x l IH]; simpl; [constructor|]. by apply insert_desc_sorted.
Qed.

Lemma isTitleChange_app b x : isTitleChange b = true → isTitleChange (b ++ x) = true.
Proof. by destruct b. Qed.

Lemma head_app_isTitleChange b x : isTitleChange b = true → head (b ++ x) = head b.
Proof. by destruct b. Qed.

Lemma filter_filter_negb {A} (p : A → bool) (l : list A) :
  List.filter p (List.filter (λ x, negb (p x)) l) = [].
Proof.
  induction l as [|x l IH]; simpl; [done|].
  destruct (p x) eqn:Hp; simpl; [done|]. by rewrite Hp.
Qed.

Lemma elem_of_concat {A} (x : A) (ls : list (list A)) :
  x ∈ concat ls ↔ ∃ l, l ∈ ls ∧ x ∈ l.
Proof.
  rewrite list_elem_of_In, in_concat. setoid_rewrite list_elem_of_In. done.
Qed.

(** After coalescing there is at most one title-change block: the
    concatenation of all of them. *)
Lemma filter_isTitleChange_coalesce bs :
  List.filter isTitleChange (coalesce bs) =
    match List.filter isTitleChange bs with
    | [] => []
    | tcs => [concat tcs]
    end.
Proof.
  induction bs as [|b bs IH]; simpl; [done|].
  destruct (isTitleChange b) eqn:Hb; simpl.
  - by rewrite (isTitleChange_app _ _ Hb), filter_filter_negb.
  - by rewrite Hb.
Qed.

Lemma concat_filter_split {A} (p : list A → bool) (l : list (list A)) :
  concat (List.filter p l) ++ concat (List.filter (λ x, negb (p x)) l) ≡ₚ concat l.
Proof.
  induction l as [|x l IH]; simpl; [done|].
  destruct (p x); simpl.
  - by rewrite <- app_assoc, IH.
  - rewrite <- IH. apply Permutation_app_swap_app.
Qed.

(** Coalescing moves elements between blocks; it loses and invents none. *)
Lemma concat_coalesce bs : concat (coalesce bs) ≡ₚ concat bs.
Proof.
  induction bs as [|b bs IH]; simpl; [done|].
  destruct (isTitleChange b); simpl.
  - by rewrite <- app_assoc, concat_filter_split.
  - by rewrite IH.
Qed.

(** A block that is not a title-change block comes out as it went in. *)
Lemma elem_of_coalesce_other bs b :
  b ∈ coalesce bs → isTitleChange b = false → b ∈ bs.
Proof.
  induction bs as [|b0 bs IH]; simpl; [done|]. intros Hin Hb.
  destruct (isTitleChange b0) eqn:Hb0.
  - apply elem_of_cons in Hin as [->|Hin].
    + by rewrite (isTitleChange_app _ _ Hb0) in Hb.
    + right. by apply elem_of_List_filter in Hin as [? _].
  - apply elem_of_cons in Hin as [->|Hin]; [by left|]. right. by apply IH.
Qed.

(** Coalescing keeps the first elements of the blocks it keeps. *)
Lemma Forall_head_coalesce (Q : option CommentItem.t → Prop) bs :
  Forall (λ b, Q (head b)) bs → Forall (λ b, Q (head b)) (coalesce bs).
Proof.
  induction 1 as [|b bs Hb Hbs IH]; simpl; [constructor|].
  destruct (isTitleChange b) eqn:HTC.
  - constructor; [by rewrite (head_app_isTitleChange _ _ HTC)|].
    apply Forall_forall. intros x Hx%elem_of_List_filter.
    rewrite Forall_forall in Hbs. apply Hbs. tauto.
  - by constructor.
Qed.

Lemma StronglySorted_List_filter {A} (R : A → A → Prop) (p : A → bool) l :
  StronglySorted R l → StronglySorted R (List.filter p l).
Proof.
  induction 1 as [|x l Hl IH Hx]; simpl; [constructor|].
  destruct (p x); [|done]. constructor; [done|].
  apply Forall_forall. intros y Hy%elem_of_List_filter.
  rewrite Forall_forall in Hx. apply Hx. tauto.
Qed.

Lemma root_edited_head b : root_edited b = from_option (λ c, edited (CommentItem.payload c)) 0 (head b).
Proof. by destruct b. Qed.

Lemma coalesce_sorted bs :
  StronglySorted (λ b1 b2, root_edited b2 ≤ root_edited b1) bs →
  StronglySorted (λ b1 b2, root_edited b2 ≤ root_edited b1) (coalesce bs).
Proof.
  induction 1 as [|b bs Hbs IH Hb]; simpl; [constructor|].
  destruct (isTitleChange b) eqn:HTC.
  - assert (root_edited (b ++ concat (List.filter isTitleChange bs)) = root_edited b) as Heq.
    { by rewrite !root_edited_head, (head_app_isTitleChange _ _ HTC). }
    constructor.
    + by apply StronglySorted_List_filter.
    + rewrite Heq. apply Forall_forall. intros y Hy%elem_of_List_filter.
      rewrite Forall_forall in Hb. apply Hb. tauto.
  - constructor; [done|].
    setoid_rewrite root_edited_head.
    apply (Forall_head_coalesce
             (λ o, from_option (λ c, edited (CommentItem.payload c)) 0 o ≤
                   from_option (λ c, edited (CommentItem.payload c)) 0 (head b))).
    eapply Forall_impl; [exact Hb|]. intros y. by rewrite !root_edited_head.
Qed.

Lemma root_blocks_sorted acts :
  StronglySorted (λ b1 b2, root_edited b2 ≤ root_edited b1) (root_blocks acts).
Proof.
  unfold root_blocks, sorted_roots.
  pose proof (orderBy_edited_desc_sorted (List.filter is_root acts)) as Hs.
  unfold newest_first in Hs.
  induction Hs as [|r rs Hrs IH Hr]; simpl; constructor; [done|].
  apply Forall_fmap. eapply Forall_impl; [exact Hr|]. done.
Qed.

Lemma elem_of_sorted_roots acts r :
  r ∈ sorted_roots acts ↔ r ∈ acts ∧ is_root r = true.
Proof.
  unfold sorted_roots. rewrite (orderBy_edited_desc_perm _).
  apply elem_of_List_filter.
Qed.

Lemma elem_of_children acts r a :
  a ∈ children acts r ↔ a ∈ acts ∧ parent_id a = Some (id r).
Proof.
  unfold children. rewrite elem_of_List_filter. unfold strict_eq.
  destruct (parent_id a) as [p|].
  - destruct (Z.eqb_spec p (id r)) as [->|Hne]; split; intros [? ?]; split;
      (done || congruence).
  - split; intros [? ?]; done.
Qed.

Lemma root_blocks_integrity acts : Forall thread_integrity (root_blocks acts).
Proof.
  unfold root_blocks. apply Forall_fmap, Forall_true. intros r. simpl.
  apply Forall_fmap, Forall_forall. intros a Ha%elem_of_children. simpl. tauto.
Qed.

(** Where the draft block ends up: it stays in front, and takes the
    title-change blocks when it is one itself. *)
Lemma assembled_split acts drafts :
  ∃ dpart fpart absorbed,
    assembled acts drafts = dpart ++ fpart ∧
    dpart = match drafts with
            | [] => []
            | _ => [map activityToCommentItem (orderBy_edited_desc drafts) ++ absorbed]
            end ∧
    absorbed = (if isTitleChange (map activityToCommentItem (orderBy_edited_desc drafts))
                then concat (List.filter isTitleChange (root_blocks acts))
                else []) ∧
    (fpart = coalesce (root_blocks acts) ∨
     fpart = List.filter (λ x, negb (isTitleChange x)) (root_blocks acts)).
Proof.
  unfold assembled, draft_blocks. destruct drafts as [|d ds].
  - eexists [], (coalesce (root_blocks acts)), _. simpl.
    split; [done|]. split; [done|]. split; [reflexivity|]. by left.
  - set (db := map activityToCommentItem (orderBy_edited_desc (d :: ds))).
    simpl. fold db. destruct (isTitleChange db) eqn:HTC.
    + eexists [_], _, _. split; [reflexivity|]. split; [reflexivity|]. split; [done|].
      by right.
    + exists [db ++ []], (coalesce (root_blocks acts)), []. rewrite app_nil_r.
      split; [done|]. split; [done|]. split; [done|]. by left.
Qed.

(** ** The properties of the assembler *)

Lemma is_title_change_block acts r :
  isTitleChange (map activityToCommentItem (thread acts r)) = is_title_change r.
Proof. done. Qed.

(** C1: when the fetched records hold at least two title-change system
    records that are thread roots, the output has exactly one block that
    starts with a title-change record, and every such record is in it. *)
Theorem title_changes_in_one_block (records drafts : list TypesPullReqActivity) :
  (2 ≤ length (title_change_roots records))%nat →
  ∃ out b,
    assemble (Some records) drafts = Some out ∧
    List.filter isTitleChange out = [b] ∧
    ∀ a, a ∈ title_change_roots records → activityToCommentItem a ∈ b.
Proof.
  intros Htwo. rewrite assemble_eq. simpl. unfold assembled.
  set (bs := draft_blocks drafts ++ root_blocks records).
  assert (Hin : ∀ a, a ∈ title_change_roots records →
                     activityToCommentItem a ∈ concat (List.filter isTitleChange bs)).
  { intros a Ha. apply elem_of_List_filter in Ha as [Ha Hp].
    apply andb_prop in Hp as [Hroot HTC].
    apply elem_of_concat. exists (map activityToCommentItem (thread records a)). split.
    - apply elem_of_List_filter. split; [|by rewrite is_title_change_block].
      apply elem_of_app. right. unfold root_blocks.
      apply (list_elem_of_fmap_2 (λ r, map activityToCommentItem (thread records r))).
      by apply elem_of_sorted_roots.
    - by left. }
  exists (coalesce bs), (concat (List.filter isTitleChange bs)).
  split; [done|]. split; [|done].
  rewrite filter_isTitleChange_coalesce.
  destruct (List.filter isTitleChange bs) as [|tc tcs] eqn:Hf; [|done].
  destruct (title_change_roots records) as [|a l]; [simpl in Htwo; lia|].
  specialize (Hin a ltac:(by left)). simpl in Hin. by apply elem_of_nil in Hin.
Qed.

Lemma title_changes_in_one_block_witness :
  ∃ out b,
    assemble (Some [title_50; title_200]) [] = Some out ∧
    List.filter isTitleChange out = [b] ∧
    activityToCommentItem title_50 ∈ b ∧ activityToCommentItem title_200 ∈ b.
Proof.
  destruct (title_changes_in_one_block [title_50; title_200] [])
    as (out & b & Hout & Hb & Hall).
  - vm_compute. lia.
  - exists out, b. split; [exact Hout|]. split; [exact Hb|].
    split; apply Hall; vm_compute; [left|right; left].
Defined.

(** C2, as stated, fails: two title-change roots end up in one block, and
    the second names no parent. *)
Lemma thread_integrity_counterexample :
  ∃ out, assemble (Some [title_50; title_200]) [] = Some out ∧
         ¬ Forall thread_integrity out.
Proof.
  eexists. split; [vm_compute; reflexivity|].
  intros H. apply Forall_cons in H as [H _]. simpl in H.
  apply Forall_cons in H as [H _]. simpl in H. discriminate H.
Qed.

(** C2 (amended): every produced block other than the draft block and the
    block that starts with a title-change system record has thread
    integrity: each element after the first names the first as its parent. *)
Theorem thread_integrity_of_threads (activities : option (list TypesPullReqActivity))
    (drafts : list TypesPullReqActivity) out i b :
  assemble activities drafts = Some out →
  out !! i = Some b →
  (length (draft_blocks drafts) ≤ i)%nat →
  isTitleChange b = false →
  thread_integrity b.
Proof.
  rewrite assemble_eq. intros [= <-] Hi Hlen HTC.
  destruct (assembled_split (default [] activities) drafts)
    as (dpart & fpart & absorbed & Heq & Hd & _ & Hf).
  rewrite Heq in Hi.
  assert (length dpart = length (draft_blocks drafts)) as Hdl.
  { rewrite Hd. by destruct drafts. }
  rewrite lookup_app_r in Hi by lia.
  apply list_elem_of_lookup_2 in Hi.
  assert (b ∈ root_blocks (default [] activities)) as Hb.
  { destruct Hf as [-> | ->].
    - by apply elem_of_coalesce_other.
    - by apply elem_of_List_filter in Hi as [? _]. }
  pose proof (root_blocks_integrity (default [] activities)) as Hall.
  rewrite Forall_forall in Hall. by apply Hall.
Qed.

Lemma thread_integrity_of_threads_witness :
  thread_integrity (map activityToCommentItem [comment_3; reply_4]).
Proof.
  apply (thread_integrity_of_threads (Some [reply_4; title_50; comment_3]) [draft_7]
           [map activityToCommentItem [draft_7];
            map activityToCommentItem [comment_3; reply_4];
            map activityToCommentItem [title_50]] 1%nat).
  - vm_compute. reflexivity.
  - reflexivity.
  - simpl. lia.
  - reflexivity.
Defined.

(** C3, as stated, fails: two drafts give one block of two elements, not
    two blocks of one element each. *)
Lemma drafts_own_blocks_counterexample :
  ¬ ∃ ds rest,
      ds ≡ₚ [draft_7; draft_8] ∧
      assemble (Some []) [draft_7; draft_8]
        = Some (map (λ d, [activityToCommentItem d]) ds ++ rest).
Proof.
  intros (ds & rest & Hperm & Hout). vm_compute in Hout.
  apply Permutation_length in Hperm.
  destruct ds as [|d1 [|d2 [|]]]; done.
Qed.

(** C3 (amended): for a non-empty draft buffer the first block of the output
    starts with all drafts, newest first.  Nothing follows them in that block
    unless the newest draft is a title-change system record; then the
    elements of the fetched title-change blocks follow. *)
Theorem drafts_in_first_block (activities : option (list TypesPullReqActivity))
    (drafts : list TypesPullReqActivity) :
  drafts ≠ [] →
  ∃ rest,
    assemble activities drafts
      = Some ((map activityToCommentItem (orderBy_edited_desc drafts) ++
               (if isTitleChange (map activityToCommentItem (orderBy_edited_desc drafts))
                then concat (List.filter isTitleChange (root_blocks (default [] activities)))
                else [])) :: rest).
Proof.
  intros Hne. rewrite assemble_eq.
  destruct (assembled_split (default [] activities) drafts)
    as (dpart & fpart & absorbed & -> & -> & -> & _).
  destruct drafts as [|d ds]; [done|]. by exists fpart.
Qed.

Lemma drafts_in_first_block_witness :
  ∃ rest,
    assemble (Some [comment_3]) [draft_7; draft_8]
      = Some (map activityToCommentItem [draft_8; draft_7] :: rest).
Proof.
  destruct (drafts_in_first_block (Some [comment_3]) [draft_7; draft_8])
    as (rest & Hout); [done|].
  exists rest. rewrite Hout. vm_compute. reflexivity.
Defined.

Lemma root_blocks_heads acts :
  Forall (λ b, ∃ r, head b = Some (activityToCommentItem r) ∧ r ∈ acts ∧ is_root r = true)
         (root_blocks acts).
Proof.
  unfold root_blocks. apply Forall_fmap, Forall_forall.
  intros r Hr%elem_of_sorted_roots. exists r. simpl. tauto.
Qed.

(** C4: the draft buffer, when not empty, gives the first block, the blocks
    after it come from the fetched records.  The drafts stand at the front of
    the draft block, newest first; every later block starts with a fetched
    root, and these blocks are ordered by their root's [edited], descending. *)
Theorem drafts_then_fetched_newest_first (activities : option (list TypesPullReqActivity))
    (drafts : list TypesPullReqActivity) :
  ∃ out,
    assemble activities drafts = Some out ∧
    let n := if decide (drafts = []) then 0%nat else 1%nat in
    (∃ absorbed,
       concat (take n out) = map activityToCommentItem (orderBy_edited_desc drafts) ++ absorbed) ∧
    orderBy_edited_desc drafts ≡ₚ drafts ∧
    newest_first (orderBy_edited_desc drafts) ∧
    Forall (λ b, ∃ r, head b = Some (activityToCommentItem r) ∧
                      r ∈ default [] activities ∧ is_root r = true) (drop n out) ∧
    StronglySorted (λ b1 b2, root_edited b2 ≤ root_edited b1) (drop n out).
Proof.
  rewrite assemble_eq. eexists. split; [reflexivity|].
  destruct (assembled_split (default [] activities) drafts)
    as (dpart & fpart & absorbed & -> & Hd & Habs & Hf).
  assert (Hn : (if decide (drafts = []) then 0%nat else 1%nat) = length dpart).
  { rewrite Hd. by destruct drafts. }
  cbv zeta. rewrite Hn, take_app_length, drop_app_length.
  split.
  { rewrite Hd. destruct drafts; simpl; [by exists []|].
    exists absorbed. by rewrite app_nil_r. }
  split; [apply orderBy_edited_desc_perm|].
  split; [apply orderBy_edited_desc_sorted|].
  pose proof (root_blocks_heads (default [] activities)) as Hheads.
  pose proof (root_blocks_sorted (default [] activities)) as Hsorted.
  destruct Hf as [-> | ->]; split.
  - by apply (Forall_head_coalesce
               (λ o, ∃ r, o = Some (activityToCommentItem r) ∧
                          r ∈ default [] activities ∧ is_root r = true)).
  - by apply coalesce_sorted.
  - apply Forall_forall. intros b Hb%elem_of_List_filter.
    rewrite Forall_forall in Hheads. apply Hheads. tauto.
  - by apply StronglySorted_List_filter.
Qed.

(** C5, as stated, fails: a record whose [parent_id] is the number 0, which
    is the id of no record, is shown as a block of its own. *)
Lemma orphans_are_dropped_counterexample :
  ∃ out,
    parent_id zero_parent_5 = Some 0 ∧
    (∀ x, x ∈ [comment_3; zero_parent_5] → id x ≠ 0) ∧
    assemble (Some [comment_3; zero_parent_5]) [] = Some out ∧
    [activityToCommentItem zero_parent_5] ∈ out.
Proof.
  eexists. split; [reflexivity|]. split; [|split; [vm_compute; reflexivity|]].
  - intros x [->|[->|[]%elem_of_nil]%elem_of_cons]%elem_of_cons; done.
  - left.
Qed.

Lemma activityToCommentItem_inj a b :
  activityToCommentItem a = activityToCommentItem b → a = b.
Proof. intros H. by apply (f_equal CommentItem.payload) in H. Qed.

Lemma is_root_false_nonzero r p : parent_id r = Some p → p ≠ 0 → is_root r = false.
Proof.
  intros Hp Hne. unfold is_root, truthy. rewrite Hp.
  by destruct (Z.eqb_spec p 0).
Qed.

Lemma concat_draft_blocks drafts :
  concat (draft_blocks drafts) ≡ₚ map activityToCommentItem drafts.
Proof.
  unfold draft_blocks. destruct drafts as [|d ds]; [done|].
  change (concat [?l]) with (l ++ []). rewrite app_nil_r.
  apply fmap_Permutation, orderBy_edited_desc_perm.
Qed.

(** C5 (amended): a fetched record whose [parent_id] is present, is not 0
    and is the id of no root, and which is not also in the draft buffer,
    appears in no block of the output, and the output is the one obtained
    without it.  (Roots are the records whose [parent_id] is absent or 0.) *)
Theorem orphans_are_dropped (l1 l2 drafts : list TypesPullReqActivity) r p :
  parent_id r = Some p →
  p ≠ 0 →
  (∀ x, x ∈ l1 ++ l2 → is_root x = true → id x ≠ p) →
  r ∉ drafts →
  ∃ out,
    assemble (Some (l1 ++ r :: l2)) drafts = Some out ∧
    assemble (Some (l1 ++ l2)) drafts = Some out ∧
    Forall (λ b, activityToCommentItem r ∉ b) out.
Proof.
  intros Hp Hne Hroots Hdrafts. rewrite !assemble_eq. simpl.
  pose proof (is_root_false_nonzero _ _ Hp Hne) as Hnr.
  assert (Hsr : sorted_roots (l1 ++ r :: l2) = sorted_roots (l1 ++ l2)).
  { unfold sorted_roots. rewrite !List.filter_app. simpl. by rewrite Hnr. }
  assert (Hrb : root_blocks (l1 ++ r :: l2) = root_blocks (l1 ++ l2)).
  { unfold root_blocks. rewrite Hsr. apply map_ext_in.
    intros x Hx%list_elem_of_In%elem_of_sorted_roots. unfold thread, children.
    do 2 f_equal. rewrite !List.filter_app. simpl. rewrite Hp. simpl.
    destruct (Z.eqb_spec p (id x)) as [->|]; [|done].
    exfalso. destruct Hx as [Hx Hxr]. by apply (Hroots x). }
  exists (assembled (l1 ++ l2) drafts). unfold assembled at 1. rewrite Hrb.
  split; [done|]. split; [done|].
  apply Forall_forall. intros b Hb Hin.
  assert (activityToCommentItem r ∈ concat (draft_blocks drafts ++ root_blocks (l1 ++ l2)))
    as Hc.
  { rewrite <- concat_coalesce. apply elem_of_concat. by exists b. }
  rewrite concat_app in Hc. apply elem_of_app in Hc as [Hc|Hc].
  - (* among the drafts *)
    apply Hdrafts. rewrite concat_draft_blocks in Hc.
    by apply list_elem_of_fmap in Hc as (a & ->%activityToCommentItem_inj & Ha).
  - (* in a thread *)
    apply elem_of_concat in Hc as (t & Ht & Hc). unfold root_blocks in Ht.
    apply list_elem_of_fmap in Ht as (x & -> & Hx%elem_of_sorted_roots).
    apply list_elem_of_fmap in Hc as (a & Heq%activityToCommentItem_inj & Ha). subst a.
    destruct Hx as [Hx Hxroot].
    apply elem_of_cons in Ha as [->|Ha]; [congruence|].
    apply elem_of_children in Ha as [_ Ha]. rewrite Hp in Ha. injection Ha as ->.
    by apply (Hroots x).
Qed.

Lemma orphans_are_dropped_witness :
  ∃ out,
    assemble (Some [comment_3; reply_4;
                    {| id := 6; parent_id := Some 9; kind := "comment"; type := "comment";
                       created := 130; edited := 130; author := "bob"; text := "lost" |}]) []
      = Some out ∧
    out = [map activityToCommentItem [comment_3; reply_4]].
Proof.
  destruct (orphans_are_dropped [comment_3; reply_4] [] []
              {| id := 6; parent_id := Some 9; kind := "comment"; type := "comment";
                 created := 130; edited := 130; author := "bob"; text := "lost" |} 9)
    as (out & Hout & Hsame & _).
  - reflexivity.
  - lia.
  - intros x [->|[->|[]%elem_of_nil]%elem_of_cons]%elem_of_cons; vm_compute; done.
  - apply not_elem_of_nil.
  - exists out. split; [exact Hout|]. vm_compute in Hsame. by injection Hsame as <-.
Defined.

(** C9: run twice on the same arrays, the assembler returns twice, with the
    same blocks each time; no array that existed before a call is changed by
    it, so the two input arrays hold afterwards what they held before, and
    the second call does not disturb the result of the first. *)
Theorem activityBlocks_deterministic_and_pure (h : heap) (activities : option loc)
    (newComments : loc) (acts drafts : list TypesPullReqActivity) :
  h !! newComments = Some (ActivityArr drafts) →
  input_at h activities acts →
  ∃ out1 h1 out2 h2 bs,
    activityBlocks activities newComments h = Some (out1, h1) ∧
    activityBlocks activities newComments h1 = Some (out2, h2) ∧
    readBlocks out1 h1 = Some (bs, h1) ∧
    readBlocks out2 h2 = Some (bs, h2) ∧
    readBlocks out1 h2 = Some (bs, h2) ∧
    extends h h1 ∧ extends h1 h2 ∧
    h2 !! newComments = Some (ActivityArr drafts) ∧
    input_at h2 activities acts.
Proof.
  intros Hln Hin.
  destruct (activityBlocks_run h activities newComments acts drafts Hln Hin)
    as (out1 & h1 & refs1 & Hrun1 & Hext1 & Hbl1 & _).
  assert (Hin1 : input_at h1 activities acts).
  { destruct activities; simpl in *; [by apply Hext1|done]. }
  destruct (activityBlocks_run h1 activities newComments acts drafts (Hext1 _ _ Hln) Hin1)
    as (out2 & h2 & refs2 & Hrun2 & Hext2 & Hbl2 & _).
  exists out1, h1, out2, h2, (assembled acts drafts).
  split; [done|]. split; [done|].
  split; [by eapply readBlocks_eq|]. split; [by eapply readBlocks_eq|].
  split.
  { destruct Hbl1 as (Hl & Hc & Hnd). apply (readBlocks_eq _ _ refs1).
    split; [by apply Hext2|]. split; [|done]. by eapply cells_extends. }
  split; [done|]. split; [done|]. split; [by apply Hext2, Hext1|].
  destruct activities; simpl in *; [by apply Hext2|done].
Qed.

Lemma activityBlocks_deterministic_and_pure_witness :
  ∃ out1 h1 out2 h2,
    activityBlocks (Some 1%nat) 0%nat
      [ActivityArr [draft_7]; ActivityArr [reply_4; title_50; comment_3; title_200]]
      = Some (out1, h1) ∧
    activityBlocks (Some 1%nat) 0%nat h1 = Some (out2, h2) ∧
    out1 ≠ out2 ∧
    ∃ bs, readBlocks out1 h2 = Some (bs, h2) ∧ readBlocks out2 h2 = Some (bs, h2).
Proof.
  destruct (activityBlocks_deterministic_and_pure
              [ActivityArr [draft_7]; ActivityArr [reply_4; title_50; comment_3; title_200]]
              (Some 1%nat) 0%nat [reply_4; title_50; comment_3; title_200] [draft_7])
    as (out1 & h1 & out2 & h2 & bs & Hrun1 & Hrun2 & _ & Hread2 & Hread1 & _);
    [reflexivity|reflexivity|].
  exists out1, h1, out2, h2. split; [exact Hrun1|]. split; [exact Hrun2|]. split.
  - vm_compute in Hrun1. injection Hrun1 as <- <-.
    vm_compute in Hrun2. injection Hrun2 as <- _. done.
  - by exists bs.
Defined.

(** ** The properties of the comment actions *)


Section GatewayFacts.

Context {Exception : Type}.
Variable getErrorMessage : Exception → string.
Variable getString : string → string.

(** C6: when the user declines the confirmation of a Delete, the action
    resolves to (false, absent); the only event is the dialog, so no request
    reaches the backend, and no notification is shown. *)
Theorem delete_declined (response : Response Exception) (threadId : Z) (value : string)
    (commentItem : option CommentItem.t) (f : Frame) :
  let (res, f') :=
    handleAction getErrorMessage getString false response threadId DELETE value commentItem f in
  res = (false, None) ∧
  events f' = events f ++ [ConfirmDialog (getString "deleteCommentConfirm")] ∧
  requests (events f') = requests (events f) ∧
  notifications (events f') = notifications (events f) ∧
  newComments f' = newComments f.
Proof.
  simpl. unfold requests, notifications. rewrite !List.filter_app. simpl.
  by rewrite !app_nil_r.
Qed.

(** C7: a Reply whose create request succeeds resolves to (true, m), [m]
    being the new record mapped by [activityToCommentItem], and shows no
    notification; a Reply whose request fails resolves to (false, absent)
    and shows exactly one notification, carrying the message derived from
    the backend's error. *)
Theorem reply_result (confirmed : bool) (threadId : Z) (value : string)
    (commentItem : option CommentItem.t) (f : Frame) :
  (∀ newComment,
     let (res, f') :=
       handleAction getErrorMessage getString confirmed (Resolved newComment)
         threadId REPLY value commentItem f in
     res = (true, Some (activityToCommentItem newComment)) ∧
     events f' = events f ++ [POST_comment value (Some threadId)] ∧
     notifications (events f') = notifications (events f)) ∧
  (∀ exception,
     let (res, f') :=
       handleAction getErrorMessage getString confirmed (Rejected exception)
         threadId REPLY value commentItem f in
     res = (false, None) ∧
     events f' = events f ++ [POST_comment value (Some threadId);
                              ShowError (getErrorMessage exception) 0
                                (Some (getString "pr.failedToSaveComment"))] ∧
     notifications (events f') =
       notifications (events f) ++ [ShowError (getErrorMessage exception) 0
                                      (Some (getString "pr.failedToSaveComment"))]).
Proof.
  split; intros x; simpl; unfold notifications.
  - rewrite List.filter_app. simpl. by rewrite app_nil_r.
  - rewrite <- !app_assoc. simpl. rewrite List.filter_app. done.
Qed.


(** The scenario of the specification: a Reply "lgtm" that succeeds. *)
Example reply_lgtm :
  fst (handleAction getErrorMessage getString true (Resolved reply_4)
         3 REPLY "lgtm" None (rendered [] false))
    = (true, Some (activityToCommentItem reply_4)) ∧
  CommentItem.content (activityToCommentItem reply_4) = "lgtm"%string.
Proof. split; reflexivity. Qed.

(** A Delete that the user confirms and the backend refuses. *)
Example delete_refused (exception : Exception) (c : CommentItem.t) :
  handleAction getErrorMessage getString true (Rejected exception)
    3 DELETE "" (Some c) (rendered [] false)
    = ((false, None),
       {| result := false; updatedItem := None; newComments := []; commentCreated := false;
          events := [ConfirmDialog (getString "deleteCommentConfirm");
                     DELETE_comment (Some (id (CommentItem.payload c)));
                     ShowError (getErrorMessage exception) 0
                       (Some (getString "pr.failedToDeleteComment"))] |}).
Proof. reflexivity. Qed.

End GatewayFacts.

(** ** The property of [Upsert] *)

(** C10: when the natural key of the argument matches a row, [Upsert]
    succeeds; the row keeps its id, its created-by and its created values
    (and its key), takes the eight other columns from the argument, every
    other row is untouched, and the stored id, created-by and created values
    are written back into the argument. *)
Theorem Upsert_on_conflict (t : database.table) (c : types.Check) (old : database.check) :
  database.rows t !! (types.RepoID c, types.CommitSHA c, types.UID c) = Some old →
  ∃ t' c' row,
    database.Upsert None t c = (None, t', c') ∧
    database.rows t' !! (types.RepoID c, types.CommitSHA c, types.UID c) = Some row ∧
    (∀ k, k ≠ (types.RepoID c, types.CommitSHA c, types.UID c) →
          database.rows t' !! k = database.rows t !! k) ∧
    database.Created row = database.Created old ∧
    database.CreatedBy row = database.CreatedBy old ∧
    database.ID row = database.ID old ∧
    database.RepoID row = database.RepoID old ∧
    database.CommitSHA row = database.CommitSHA old ∧
    database.UID row = database.UID old ∧
    database.Updated row = types.Updated c ∧
    database.Status row = types.Status c ∧
    database.Summary row = types.Summary c ∧
    database.Link row = types.Link c ∧
    database.Payload row = types.Data (types.Payload c) ∧
    database.Metadata row = types.Metadata c ∧
    database.PayloadKind row = types.Kind (types.Payload c) ∧
    database.PayloadVersion row = types.Version (types.Payload c) ∧
    types.ID c' = database.ID old ∧
    types.CreatedBy c' = database.CreatedBy old ∧
    types.Created c' = database.Created old.
Proof.
  intros Hold. unfold database.Upsert, database.sqlQuery.
  change (database.natural_key (database.mapInternalCheck c))
    with (types.RepoID c, types.CommitSHA c, types.UID c).
  rewrite Hold. eexists _, _, _. split; [reflexivity|]. simpl.
  split; [apply lookup_insert_eq|]. split; [|by repeat split].
  intros k Hk. by apply lookup_insert_ne.
Qed.

Lemma Upsert_on_conflict_witness :
  ∃ t' c',
    database.Upsert None stored_table later_report = (None, t', c') ∧
    types.ID c' = 41 ∧ types.CreatedBy c' = 7 ∧ types.Created c' = 1000 ∧
    ∃ row, database.rows t' !! (3, "abc123"%string, "ci/build"%string) = Some row ∧
           database.Created row = 1000 ∧ database.CreatedBy row = 7 ∧
           database.Status row = "success"%string.
Proof.
  destruct (Upsert_on_conflict stored_table later_report stored_row)
    as (t' & c' & row & Hrun & Hrow & _ & Hcreated & Hby & _ & _ & _ & _ & _ & Hstatus
        & _ & _ & _ & _ & _ & _ & Hid & Hcby & Hccr).
  - vm_compute. reflexivity.
  - exists t', c'. split; [exact Hrun|]. split; [exact Hid|]. split; [exact Hcby|].
    split; [exact Hccr|]. exists row. split; [exact Hrow|]. split; [exact Hcreated|].
    split; [exact Hby|]. exact Hstatus.
Defined.

(** ** Further properties of the status-check store *)

Lemma insert_by_perm {A} (before : A → A → bool) x l : insert_by before x l ≡ₚ x :: l.
Proof.
  induction l as [|y l IH]; simpl; [done|].
  destruct (before x y); [done|]. rewrite IH. apply Permutation_swap.
Qed.

Lemma order_by_perm {A} (before : A → A → bool) l : order_by before l ≡ₚ l.
Proof.
  induction l as [|x l IH]; simpl; [done|]. by rewrite insert_by_perm, IH.
Qed.

Lemma order_by_sorted {A} (before : A → A → bool) l :
  (∀ x y, before x y = false → before y x = true) →
  (∀ x y z, before x y = true → before y z = true → before x z = true) →
  StronglySorted (λ x y, before x y = true) (order_by before l).
Proof.
  intros Htotal Htrans. induction l as [|x l IH]; simpl; [constructor|].
  revert IH. generalize (order_by before l). clear l. intros l Hl.
  induction Hl as [|y l Hl IH Hy]; simpl; [repeat constructor|].
  destruct (before x y) eqn:Hxy.
  - constructor; [by constructor|]. constructor; [done|].
    eapply Forall_impl; [exact Hy|]. intros z Hz. by eapply Htrans.
  - constructor; [done|]. rewrite insert_by_perm. constructor; [by apply Htotal|done].
Qed.

Lemma elem_of_scan (t : database.table) row :
  row ∈ checks.scan t ↔ ∃ k, database.rows t !! k = Some row.
Proof.
  unfold checks.scan. rewrite list_elem_of_fmap. split.
  - intros ([k r] & -> & Hin%elem_of_map_to_list). by exists k.
  - intros (k & Hk). exists (k, row). split; [done|]. by apply elem_of_map_to_list.
Qed.

Lemma payload_eta (p : types.CheckPayload) :
  {| types.Version := types.Version p; types.Kind := types.Kind p;
     types.Data := types.Data p |} = p.
Proof. by destruct p. Qed.

(** The outcome of a query that the driver answers. *)
Lemma Upsert_Some (t : database.table) (c : types.Check) old :
  database.rows t !! database.natural_key (database.mapInternalCheck c) = Some old →
  database.Upsert None t c =
    (None,
     {| database.rows :=
          <[database.natural_key (database.mapInternalCheck c) :=
              database.do_update old (database.mapInternalCheck c)]> (database.rows t);
        database.next_id := database.next_id t |},
     database.Scan c (database.ID old, database.CreatedBy old, database.Created old)).
Proof. intros Hold. unfold database.Upsert, database.sqlQuery. by rewrite Hold. Qed.

Lemma Upsert_None (t : database.table) (c : types.Check) :
  database.rows t !! database.natural_key (database.mapInternalCheck c) = None →
  database.Upsert None t c =
    (None,
     {| database.rows :=
          <[database.natural_key (database.mapInternalCheck c) :=
              database.do_insert (database.next_id t) (database.mapInternalCheck c)]>
            (database.rows t);
        database.next_id := database.next_id t + 1 |},
     database.Scan c (database.next_id t, types.CreatedBy c, types.Created c)).
Proof. intros Hnew. unfold database.Upsert, database.sqlQuery. by rewrite Hnew. Qed.

(** X1: a check whose natural key matches no row is inserted: it gets the
    next id of the sequence, which is written back into the argument together
    with the created-by and created values the caller gave; the stored row is
    the internal image of the check returned; no other row changes. *)
Theorem Upsert_inserts_new_key (t : database.table) (c : types.Check) :
  database.rows t !! (types.RepoID c, types.CommitSHA c, types.UID c) = None →
  ∃ t' c',
    database.Upsert None t c = (None, t', c') ∧
    types.ID c' = database.next_id t ∧
    types.CreatedBy c' = types.CreatedBy c ∧
    types.Created c' = types.Created c ∧
    database.rows t' !! (types.RepoID c, types.CommitSHA c, types.UID c)
      = Some (database.mapInternalCheck c') ∧
    database.next_id t' = database.next_id t + 1 ∧
    ∀ k, k ≠ (types.RepoID c, types.CommitSHA c, types.UID c) →
         database.rows t' !! k = database.rows t !! k.
Proof.
  intros Hnew. rewrite (Upsert_None t c Hnew). eexists _, _. split; [reflexivity|].
  simpl. repeat split.
  - unfold database.natural_key. simpl. by rewrite lookup_insert_eq.
  - intros k Hk. unfold database.natural_key. simpl. by rewrite lookup_insert_ne.
Qed.

Lemma Upsert_inserts_new_key_witness :
  ∃ t' c',
    database.Upsert None stored_table first_report = (None, t', c') ∧
    types.ID c' = 42 ∧ database.next_id t' = 43.
Proof.
  destruct (Upsert_inserts_new_key stored_table first_report)
    as (t' & c' & Hrun & Hid & _ & _ & _ & Hnext & _).
  - vm_compute. reflexivity.
  - by exists t', c'.
Defined.

(** X2: reporting the same result again changes nothing: after an [Upsert],
    a second one with the same argument, or with the check the first one
    returned, leaves every row as it is and returns the same check. *)
Theorem Upsert_again_changes_nothing (t : database.table) (c : types.Check) :
  let '(_, t1, c1) := database.Upsert None t c in
  (let '(e, t2, c2) := database.Upsert None t1 c in
   e = None ∧ database.rows t2 = database.rows t1 ∧ c2 = c1) ∧
  (let '(e, t2, c2) := database.Upsert None t1 c1 in
   e = None ∧ database.rows t2 = database.rows t1 ∧ c2 = c1).
Proof.
  destruct (database.rows t !! database.natural_key (database.mapInternalCheck c))
    as [old|] eqn:Hlook.
  - rewrite (Upsert_Some t c old Hlook).
    set (key := database.natural_key (database.mapInternalCheck c)).
    split.
    + erewrite Upsert_Some; [|simpl; fold key; apply lookup_insert_eq].
      simpl. fold key. by rewrite insert_insert_eq.
    + erewrite Upsert_Some; [|simpl; apply lookup_insert_eq].
      simpl. unfold database.natural_key. simpl. by rewrite insert_insert_eq.
  - rewrite (Upsert_None t c Hlook).
    set (key := database.natural_key (database.mapInternalCheck c)).
    split.
    + erewrite Upsert_Some; [|simpl; fold key; apply lookup_insert_eq].
      simpl. fold key. by rewrite insert_insert_eq.
    + erewrite Upsert_Some; [|simpl; apply lookup_insert_eq].
      simpl. unfold database.natural_key. simpl. by rewrite insert_insert_eq.
Qed.

Lemma Upsert_keeps_table_ok failure (t : database.table) (c : types.Check) :
  table_ok t → table_ok (database.Upsert failure t c).1.2.
Proof.
  intros [Hkey Hid]. destruct failure as [err|]; [done|].
  set (key := database.natural_key (database.mapInternalCheck c)).
  destruct (database.rows t !! key) as [old|] eqn:Hlook.
  - rewrite (Upsert_Some t c old Hlook). unfold table_ok. simpl. fold key.
    destruct (Hkey _ _ Hlook) as [Hk Hlt]. split.
    + intros k row [[<- <-]|[Hne Hrow]]%lookup_insert_Some; [done|by apply Hkey].
    + intros k1 k2 r1 r2 [[<- <-]|[Hne1 H1]]%lookup_insert_Some
                         [[<- <-]|[Hne2 H2]]%lookup_insert_Some Heq; simpl in *.
      * done.
      * by apply (Hid key k2 old r2).
      * by apply (Hid k1 key r1 old).
      * by apply (Hid k1 k2 r1 r2).
  - rewrite (Upsert_None t c Hlook). unfold table_ok. simpl. fold key. split.
    + intros k row [[<- <-]|[Hne Hrow]]%lookup_insert_Some; simpl.
      * split; [done|lia].
      * destruct (Hkey _ _ Hrow). split; [done|lia].
    + intros k1 k2 r1 r2 [[<- <-]|[Hne1 H1]]%lookup_insert_Some
                         [[<- <-]|[Hne2 H2]]%lookup_insert_Some Heq; simpl in *.
      * done.
      * destruct (Hkey _ _ H2). lia.
      * destruct (Hkey _ _ H1). lia.
      * by apply (Hid k1 k2 r1 r2).
Qed.

(** X3: whatever series of reports is upserted into the empty table, with
    whatever failures of the driver in between, every row sits under its own
    natural key and no two rows share a check id. *)
Theorem upserts_keep_ids_unique (calls : list (option string * types.Check)) :
  table_ok (upsert_all calls empty_table).
Proof.
  assert (Hgen : ∀ t, table_ok t → table_ok (upsert_all calls t)).
  { induction calls as [|call calls IH]; intros t Ht; simpl; [done|].
    apply IH. by apply Upsert_keeps_table_ok. }
  apply Hgen. split; simpl.
  - intros k row Hk. by rewrite lookup_empty in Hk.
  - intros k1 k2 r1 r2 Hk. by rewrite lookup_empty in Hk.
Qed.

Lemma mapInternalCheck_mapCheck {PrincipalInfo : Type} (no_principal : PrincipalInfo) row :
  database.mapInternalCheck (checks.base (checks.mapCheck no_principal row)) = row.
Proof. by destruct row. Qed.

Lemma mapCheck_mapInternalCheck {PrincipalInfo : Type} (no_principal : PrincipalInfo) c :
  checks.mapCheck no_principal (database.mapInternalCheck c)
    = {| checks.base := c; checks.ReportedBy := no_principal |}.
Proof. destruct c as [? ? ? ? ? ? ? ? ? ? ? []]. reflexivity. Qed.

(** X4: a row and a check carry the same data: mapping a row out with
    [mapCheck] and back in with [mapInternalCheck] gives the row, and mapping
    a check in and out gives the check, with no reporter attached. *)
Theorem mapCheck_mapInternalCheck_round_trip {PrincipalInfo : Type}
    (no_principal : PrincipalInfo) :
  (∀ row, database.mapInternalCheck (checks.base (checks.mapCheck no_principal row)) = row) ∧
  (∀ c, checks.mapCheck no_principal (database.mapInternalCheck c)
          = {| checks.base := c; checks.ReportedBy := no_principal |}).
Proof.
  split; intros x; [apply mapInternalCheck_mapCheck|apply mapCheck_mapInternalCheck].
Qed.

Lemma Upsert_stored_row (t : database.table) (c : types.Check) :
  table_ok t →
  let '(_, t', c') := database.Upsert None t c in
  database.rows t' !! (types.RepoID c, types.CommitSHA c, types.UID c)
    = Some (database.mapInternalCheck c') ∧
  (types.RepoID c', types.CommitSHA c', types.UID c')
    = (types.RepoID c, types.CommitSHA c, types.UID c).
Proof.
  intros [Hkey _].
  set (key := database.natural_key (database.mapInternalCheck c)).
  destruct (database.rows t !! key) as [old|] eqn:Hlook.
  - rewrite (Upsert_Some t c old Hlook). simpl. split; [|done].
    change (types.RepoID c, types.CommitSHA c, types.UID c) with key.
    rewrite lookup_insert_eq. f_equal.
    destruct (Hkey _ _ Hlook) as [Hk _]. unfold database.natural_key in Hk.
    unfold key, database.natural_key in Hk. simpl in Hk. injection Hk as H1 H2 H3.
    unfold database.do_update, database.mapInternalCheck. simpl. by rewrite H1, H2, H3.
  - rewrite (Upsert_None t c Hlook). simpl. split; [|done].
    change (types.RepoID c, types.CommitSHA c, types.UID c) with key.
    by rewrite lookup_insert_eq.
Qed.

(** X5: on a table whose rows sit under their keys, what a successful
    [Upsert] stores under the natural key of its argument is the internal
    image of the check it returns. *)
Theorem Upsert_stores_what_it_returns (t : database.table) (c : types.Check) :
  table_ok t →
  let '(_, t', c') := database.Upsert None t c in
  database.rows t' !! (types.RepoID c, types.CommitSHA c, types.UID c)
    = Some (database.mapInternalCheck c') ∧
  (types.RepoID c', types.CommitSHA c', types.UID c')
    = (types.RepoID c, types.CommitSHA c, types.UID c).
Proof. apply Upsert_stored_row. Qed.

Lemma table_ok_stored_table : table_ok stored_table.
Proof.
  split; simpl.
  - intros k row [<- <-]%lookup_singleton_Some. split; [reflexivity|]. vm_compute. done.
  - intros k1 k2 r1 r2 [<- _]%lookup_singleton_Some [<- _]%lookup_singleton_Some _. done.
Qed.

Lemma Upsert_stores_what_it_returns_witness :
  let '(_, t', c') := database.Upsert None stored_table later_report in
  database.rows t' !! (3, "abc123"%string, "ci/build"%string)
    = Some (database.mapInternalCheck c') ∧ types.ID c' = 41.
Proof.
  pose proof (Upsert_stores_what_it_returns stored_table later_report table_ok_stored_table)
    as H.
  destruct (database.Upsert None stored_table later_report) as [[e t'] c'] eqn:Hrun.
  destruct H as [H _]. split; [exact H|].
  vm_compute in Hrun. by injection Hrun as _ _ <-.
Defined.

Lemma insert_by_fmap {A B} (f : A → B) (before : B → B → bool) x l :
  f <$> insert_by (λ a b, before (f a) (f b)) x l = insert_by before (f x) (f <$> l).
Proof.
  induction l as [|y l IH]; simpl; [done|].
  destruct (before (f x) (f y)); simpl; [done|]. f_equal. exact IH.
Qed.

Lemma order_by_fmap {A B} (f : A → B) (before : B → B → bool) l :
  f <$> order_by (λ a b, before (f a) (f b)) l = order_by before (f <$> l).
Proof.
  unfold order_by. induction l as [|x l IH]; [done|].
  change (f <$> insert_by (λ a b, before (f a) (f b)) x
                  (foldr (insert_by (λ a b, before (f a) (f b))) [] l)
          = insert_by before (f x) (foldr (insert_by before) [] (f <$> l))).
  by rewrite insert_by_fmap, IH.
Qed.

Lemma List_filter_fmap {A B} (f : A → B) (p : B → bool) l :
  List.filter p (f <$> l) = f <$> List.filter (λ a, p (f a)) l.
Proof.
  induction l as [|x l IH]; simpl; [done|].
  destruct (p (f x)); simpl; [f_equal|]; exact IH.
Qed.

Lemma List_filter_sublist {A} (p : A → bool) l : List.filter p l `sublist_of` l.
Proof.
  induction l as [|x l IH]; simpl; [done|].
  destruct (p x); [by apply sublist_skip|by apply sublist_cons].
Qed.

(** What [List] reads, each row with the key it is stored under. *)
Lemma List_dst_keyed (t : database.table) (repoID : Z) (commitSHA : string) :
  ∃ keyed : list ((Z * string * string) * database.check),
    checks.List_dst t repoID commitSHA = keyed.*2 ∧
    NoDup keyed.*1 ∧
    (∀ k row, (k, row) ∈ keyed ↔
              database.rows t !! k = Some row ∧
              database.RepoID row = repoID ∧ database.CommitSHA row = commitSHA) ∧
    StronglySorted (λ x y, database.Updated y.2 ≤ database.Updated x.2) keyed.
Proof.
  set (p := λ c : database.check,
              bool_decide (database.RepoID c = repoID) &&
              bool_decide (database.CommitSHA c = commitSHA)).
  set (before := λ x y : database.check, database.Updated y <=? database.Updated x).
  set (before2 := λ x y : (Z * string * string) * database.check, before x.2 y.2).
  exists (order_by before2
            (List.filter (λ kr, p kr.2) (map_to_list (database.rows t)))).
  split; [|split; [|split]].
  - unfold checks.List_dst, checks.scan. fold p before.
    rewrite (List_filter_fmap snd p). symmetry. apply (order_by_fmap snd before).
  - rewrite (order_by_perm _ _).
    apply (sublist_NoDup _ (map_to_list (database.rows t)).*1).
    + apply NoDup_fst_map_to_list.
    + apply fmap_sublist, List_filter_sublist.
  - intros k row. rewrite (order_by_perm _ _), elem_of_List_filter, elem_of_map_to_list.
    unfold p. simpl. rewrite andb_true_iff, !bool_decide_eq_true. tauto.
  - assert (Hs : StronglySorted (λ x y, before2 x y = true)
                   (order_by before2
                      (List.filter (λ kr, p kr.2) (map_to_list (database.rows t))))).
    { apply order_by_sorted; unfold before2, before; intros; lia. }
    induction Hs as [|x l Hl IH Hx]; constructor; [done|].
    eapply Forall_impl; [exact Hx|]. intros y Hy. unfold before2, before in Hy. lia.
Qed.

Section StoreReads.

Context {PrincipalInfo : Type}.
Variable no_principal : PrincipalInfo.
Variable pCache_Map : list Z → string + gmap Z PrincipalInfo.
Variable uid_before : string → string → bool.

Lemma mapSliceCheck_inr infoMap rows :
  pCache_Map (map database.CreatedBy rows) = inr infoMap →
  checks.mapSliceCheck no_principal pCache_Map rows
    = inr (map (listed no_principal infoMap) rows).
Proof.
  intros Hc. unfold checks.mapSliceCheck. rewrite Hc. f_equal.
  apply map_ext. intros row. unfold listed.
  by destruct (infoMap !! database.CreatedBy row).
Qed.

Lemma List_answered (t : database.table) (repoID : Z)
    (commitSHA : string) (infoMap : gmap Z PrincipalInfo) :
  pCache_Map (map database.CreatedBy (checks.List_dst t repoID commitSHA)) = inr infoMap →
  ∃ keyed : list ((Z * string * string) * database.check),
    checks.List no_principal pCache_Map None t repoID commitSHA
      = inr (map (listed no_principal infoMap) keyed.*2) ∧
    NoDup keyed.*1 ∧
    (∀ k row, (k, row) ∈ keyed ↔
              database.rows t !! k = Some row ∧
              database.RepoID row = repoID ∧ database.CommitSHA row = commitSHA) ∧
    StronglySorted (λ x y, database.Updated y.2 ≤ database.Updated x.2) keyed.
Proof.
  intros Hcache.
  destruct (List_dst_keyed t repoID commitSHA) as (keyed & Hdst & Hkeys & Hin & Hsorted).
  exists keyed. split; [|done].
  unfold checks.List. simpl. rewrite <- Hdst. by apply mapSliceCheck_inr.
Qed.

(** X6: when the query is answered and the cache answers for the ids of the
    rows read, [List] returns one check for each row stored for the
    repository and commit, and nothing else, most recently updated first;
    each carries the reporter the cache knows for its created-by id, and the
    zero principal when the cache knows none. *)
Theorem List_returns_the_commits_checks (t : database.table) (repoID : Z)
    (commitSHA : string) (infoMap : gmap Z PrincipalInfo) :
  pCache_Map (map database.CreatedBy (checks.List_dst t repoID commitSHA)) = inr infoMap →
  ∃ keyed : list ((Z * string * string) * database.check),
    checks.List no_principal pCache_Map None t repoID commitSHA
      = inr (map (listed no_principal infoMap) keyed.*2) ∧
    NoDup keyed.*1 ∧
    (∀ k row, (k, row) ∈ keyed ↔
              database.rows t !! k = Some row ∧
              database.RepoID row = repoID ∧ database.CommitSHA row = commitSHA) ∧
    StronglySorted (λ x y, database.Updated y.2 ≤ database.Updated x.2) keyed.
Proof. apply List_answered. Qed.

(** X7: when the principal cache fails for the ids of the rows read, [List]
    fails as a whole, with the cache's error wrapped: the rows it has read
    are not returned without their reporters. *)
Theorem List_fails_when_the_cache_fails (t : database.table) (repoID : Z)
    (commitSHA : string) (err : string) :
  pCache_Map (map database.CreatedBy (checks.List_dst t repoID commitSHA)) = inl err →
  checks.List no_principal pCache_Map None t repoID commitSHA
    = inl (checks.Errorf "failed to load status check principal reporters: %w" err).
Proof.
  intros Hdown. unfold checks.List, checks.mapSliceCheck. simpl. by rewrite Hdown.
Qed.

(** X8: when the query is answered, [ListRecent] returns each check uid that
    has a row in the repository created after [since], once, and no other. *)
Theorem ListRecent_returns_each_recent_uid_once (t : database.table) (repoID since : Z) :
  ∃ l,
    checks.ListRecent uid_before None t repoID since = inr l ∧
    NoDup l ∧
    ∀ uid, uid ∈ l ↔
           ∃ k row, database.rows t !! k = Some row ∧
                    database.RepoID row = repoID ∧ since < database.Created row ∧
                    database.UID row = uid.
Proof.
  unfold checks.ListRecent. eexists. split; [reflexivity|]. split.
  - rewrite (order_by_perm _ _). apply NoDup_remove_dups.
  - intros uid. rewrite (order_by_perm _ _), elem_of_remove_dups, list_elem_of_fmap.
    split.
    + intros (row & -> & Hrow).
      apply elem_of_List_filter in Hrow as [[k Hk]%elem_of_scan Hp].
      apply andb_prop in Hp as [H1%bool_decide_eq_true H2%Z.ltb_lt].
      by exists k, row.
    + intros (k & row & Hk & H1 & H2 & <-). exists row. split; [done|].
      apply elem_of_List_filter. split.
      * apply elem_of_scan. by exists k.
      * rewrite bool_decide_eq_true_2 by done. by apply Z.ltb_lt.
Qed.

(** X9: what [Upsert] writes, [List] reads: on a table whose rows sit under
    their keys, after a successful [Upsert] of a check, [List] for its
    repository and commit (the cache answering for the ids of the rows read)
    returns the check that [Upsert] handed back, with the reporter the cache
    knows for it. *)
Theorem Upsert_then_List (t : database.table) (c : types.Check)
    (infoMap : gmap Z PrincipalInfo) :
  table_ok t →
  pCache_Map
    (map database.CreatedBy
       (checks.List_dst (database.Upsert None t c).1.2 (types.RepoID c) (types.CommitSHA c)))
    = inr infoMap →
  let '(_, t', c') := database.Upsert None t c in
  ∃ l,
    checks.List no_principal pCache_Map None t' (types.RepoID c) (types.CommitSHA c) = inr l ∧
    {| checks.base := c';
       checks.ReportedBy := default no_principal (infoMap !! types.CreatedBy c') |} ∈ l.
Proof.
  intros Hok Hcache.
  pose proof (Upsert_stored_row t c Hok) as Hstored.
  destruct (database.Upsert None t c) as [[e t'] c'] eqn:Hrun. simpl in Hcache.
  destruct Hstored as [Hrow Hkey]. injection Hkey as Hr Hs Hu.
  destruct (List_answered t' (types.RepoID c) (types.CommitSHA c)
              infoMap Hcache) as (keyed & Hl & _ & Hin & _).
  eexists. split; [exact Hl|].
  assert (Hk : ((types.RepoID c, types.CommitSHA c, types.UID c),
                database.mapInternalCheck c') ∈ keyed).
  { apply Hin. split; [done|]. split; done. }
  apply list_elem_of_fmap. exists (database.mapInternalCheck c'). split.
  - unfold listed. by rewrite mapCheck_mapInternalCheck.
  - apply list_elem_of_fmap. by eexists (_, _).
Qed.

End StoreReads.

Lemma List_returns_the_commits_checks_witness :
  ∃ keyed,
    checks.List "nobody"%string cache_of_7_and_9 None stored_table 3 "abc123"
      = inr (map (listed "nobody"%string {[ 7 := "ann"%string ]}) keyed.*2) ∧
    ((3, "abc123"%string, "ci/build"%string), stored_row) ∈ keyed.
Proof.
  destruct (List_returns_the_commits_checks "nobody"%string cache_of_7_and_9 stored_table 3
              "abc123" {[ 7 := "ann"%string ]}) as (keyed & Hl & _ & Hin & _).
  - vm_compute. reflexivity.
  - exists keyed. split; [exact Hl|]. apply Hin.
    split; [apply lookup_singleton_eq|]. split; reflexivity.
Defined.

Lemma List_fails_when_the_cache_fails_witness :
  cache_down [] = inr ∅ ∧
  checks.List "nobody"%string cache_down None stored_table 3 "abc123"
    = inl (checks.Errorf "failed to load status check principal reporters: %w" "cache down").
Proof.
  split; [reflexivity|].
  apply (List_fails_when_the_cache_fails "nobody"%string cache_down stored_table 3 "abc123").
  vm_compute. reflexivity.
Defined.

Lemma Upsert_then_List_witness :
  let '(_, t', c') := database.Upsert None stored_table later_report in
  ∃ l, checks.List "nobody"%string cache_of_7_and_9 None t' 3 "abc123" = inr l ∧
       {| checks.base := c'; checks.ReportedBy := "ann"%string |} ∈ l.
Proof.
  pose proof (Upsert_then_List "nobody"%string cache_of_7_and_9 stored_table later_report
                {[ 7 := "ann"%string ]} table_ok_stored_table) as H.
  destruct (database.Upsert None stored_table later_report) as [[e t'] c'] eqn:Hrun.
  vm_compute in Hrun. injection Hrun as _ <- <-.
  destruct H as (l & Hl & Hin); [vm_compute; reflexivity|].
  exists l. split; [exact Hl|]. exact Hin.
Defined.

(** ** Further properties of the comment actions *)

Lemma requests_app evs evs' : requests (evs ++ evs') = requests evs ++ requests evs'.
Proof. apply List.filter_app. Qed.

Lemma notifications_app evs evs' :
  notifications (evs ++ evs') = notifications evs ++ notifications evs'.
Proof. apply List.filter_app. Qed.

(** X10: what an action of a thread's box does, for each of the three
    actions and each answer of the user and of the backend.  A request is
    issued unless a Delete is declined, and never more than one; the result
    is true exactly when the request was issued and resolved; a notification
    is shown, once, exactly when the request was issued and rejected; an
    updated item is handed back exactly by a resolved Reply or Update; the
    draft buffer and the just-created flag are never touched. *)
Theorem thread_action_outcomes {Exception : Type} (getErrorMessage : Exception → string)
    (getString : string → string) (confirmed : bool) (response : Response Exception)
    (threadId : Z) (action : CommentAction) (value : string)
    (commentItem : option CommentItem.t) (f : Frame) :
  let (res, f') :=
    handleAction getErrorMessage getString confirmed response threadId action value
      commentItem f in
  let issued := match action with DELETE => confirmed | _ => true end in
  let resolved := match response with Resolved _ => true | Rejected _ => false end in
  length (requests (events f')) =
    (length (requests (events f)) + if issued then 1 else 0)%nat ∧
  res.1 = issued && resolved ∧
  length (notifications (events f')) =
    (length (notifications (events f)) + if issued && negb resolved then 1 else 0)%nat ∧
  (is_Some res.2 ↔ action ≠ DELETE ∧ resolved = true) ∧
  newComments f' = newComments f ∧
  commentCreated f' = commentCreated f.
Proof.
  destruct action, confirmed, response as [newComment|exception]; simpl;
    rewrite <- ?app_assoc, ?requests_app, ?notifications_app, ?length_app; simpl;
    (split; [lia|]); (split; [done|]); (split; [lia|]); (split; [|done]);
    (split; [intros H|intros [H1 H2]]);
    try done; try (by destruct H); try (split; done); try (by eexists).
Qed.

Lemma orderBy_newest_last l x :
  (∀ d, d ∈ l → edited d < edited x) →
  orderBy_edited_desc (l ++ [x]) = x :: orderBy_edited_desc l.
Proof.
  unfold orderBy_edited_desc. rewrite foldr_app. simpl.
  induction l as [|a l IH]; intros Hlt; simpl; [done|].
  assert (Ha : edited a < edited x) by (apply Hlt; by left).
  rewrite IH by (intros d Hd; apply Hlt; by right). simpl.
  destruct (Z.leb_spec (edited x) (edited a)); [lia|done].
Qed.

Lemma assemble_first_block activities drafts :
  drafts ≠ [] →
  ∃ absorbed rest,
    assemble activities drafts
      = Some ((map activityToCommentItem (orderBy_edited_desc drafts) ++ absorbed) :: rest).
Proof.
  intros Hne. rewrite assemble_eq.
  destruct (assembled_split (default [] activities) drafts)
    as (dpart & fpart & absorbed & -> & -> & _ & _).
  destruct drafts as [|d ds]; [done|]. by exists absorbed, fpart.
Qed.

(** X11: after a successful top-level submission the just-created flag is
    set and, whatever has been fetched, the first block of the next assembly
    contains the new comment. *)
Theorem new_comment_is_in_the_first_block {Exception : Type}
    (getErrorMessage : Exception → string) (value : string)
    (newComment : TypesPullReqActivity) (f : Frame)
    (activities : option (list TypesPullReqActivity)) :
  let (_, f') :=
    handleAction_newComment getErrorMessage (Resolved newComment) (newComments f) value f in
  commentCreated f' = true ∧
  ∃ first rest,
    assemble activities (newComments f') = Some (first :: rest) ∧
    activityToCommentItem newComment ∈ first.
Proof.
  simpl. split; [done|].
  destruct (assemble_first_block activities (newComments f ++ [newComment]))
    as (absorbed & rest & Hrun).
  { by destruct (newComments f). }
  eexists _, _. split; [exact Hrun|].
  apply elem_of_app. left. apply list_elem_of_fmap_2.
  rewrite (orderBy_edited_desc_perm _). apply elem_of_app. right. by left.
Qed.

(** X12: when the created record is edited later than every draft already
    in the buffer, it is the first element of the first block of the next
    assembly, so that block is keyed by its id. *)
Theorem new_comment_heads_the_first_block {Exception : Type}
    (getErrorMessage : Exception → string) (value : string)
    (newComment : TypesPullReqActivity) (f : Frame)
    (activities : option (list TypesPullReqActivity)) :
  (∀ d, d ∈ newComments f → edited d < edited newComment) →
  let (_, f') :=
    handleAction_newComment getErrorMessage (Resolved newComment) (newComments f) value f in
  ∃ others rest,
    assemble activities (newComments f')
      = Some ((activityToCommentItem newComment :: others) :: rest).
Proof.
  intros Hnewest. simpl.
  destruct (assemble_first_block activities (newComments f ++ [newComment]))
    as (absorbed & rest & Hrun).
  { by destruct (newComments f). }
  rewrite (orderBy_newest_last _ _ Hnewest) in Hrun. simpl in Hrun.
  by eexists _, _.
Qed.

Lemma new_comment_heads_the_first_block_witness :
  ∃ others rest,
    assemble (Some [comment_3])
      (newComments
         (handleAction_newComment (λ e : string, e) (Resolved draft_8) [draft_7] "two"
            (rendered [draft_7] false)).2)
      = Some ((activityToCommentItem draft_8 :: others) :: rest).
Proof.
  pose proof (new_comment_heads_the_first_block (λ e : string, e) "two" draft_8
                (rendered [draft_7] false) (Some [comment_3])) as H.
  simpl in H. apply H.
  intros d ->%list_elem_of_singleton. vm_compute. done.
Defined.

(** ** Further properties of the assembler *)

Lemma coalesce_at_most_one bs :
  (length (List.filter isTitleChange bs) ≤ 1)%nat → coalesce bs = bs.
Proof.
  induction bs as [|b bs IH]; simpl; [done|].
  destruct (isTitleChange b) eqn:Hb; simpl; intros Hlen.
  - destruct (List.filter isTitleChange bs) as [|? ?] eqn:Hf; [|simpl in Hlen; lia].
    simpl. rewrite app_nil_r. f_equal.
    clear -Hf. induction bs as [|x bs IH]; simpl in *; [done|].
    destruct (isTitleChange x); [done|]. simpl. f_equal. by apply IH.
  - f_equal. by apply IH.
Qed.

Lemma elem_of_coalesce_keep bs b :
  b ∈ bs → isTitleChange b = false → b ∈ coalesce bs.
Proof.
  induction bs as [|b0 bs IH]; simpl; [done|]. intros Hin Hb.
  destruct (isTitleChange b0) eqn:Hb0.
  - apply elem_of_cons in Hin as [->|Hin]; [congruence|].
    right. apply elem_of_List_filter. by rewrite Hb.
  - apply elem_of_cons in Hin as [->|Hin]; [by left|]. right. by apply IH.
Qed.

Lemma concat_root_blocks acts :
  concat (root_blocks acts) ≡ₚ
    map activityToCommentItem (concat (map (thread acts) (List.filter is_root acts))).
Proof.
  unfold root_blocks, sorted_roots.
  rewrite <- (orderBy_edited_desc_perm (List.filter is_root acts)) at 2.
  generalize (orderBy_edited_desc (List.filter is_root acts)). intros rs.
  induction rs as [|r rs IH]; [done|].
  cbn [map concat]. rewrite IH, map_app. done.
Qed.

(** X13: the assembler returns no empty block, for any fetched records
    (also none yet) and any draft buffer; so [blocks[0]] is defined for
    every block the page renders. *)
Theorem assembled_blocks_are_not_empty (activities : option (list TypesPullReqActivity))
    (drafts : list TypesPullReqActivity) :
  ∃ out, assemble activities drafts = Some out ∧ Forall (λ b, b ≠ []) out.
Proof.
  rewrite assemble_eq. eexists. split; [reflexivity|]. unfold assembled.
  pose proof (thread_blocks_nonempty (default [] activities) drafts) as Hne.
  apply (Forall_impl (λ b, is_Some (head b))); [|by intros [|] []].
  apply (Forall_head_coalesce is_Some).
  eapply Forall_impl; [exact Hne|]. intros [|c b] Hb; [done|by eexists].
Qed.

(** X14: the blocks hold, each as often as it arises, the drafts, the
    fetched roots and, for each root, the fetched records whose [parent_id]
    is the root's id, and nothing else: coalescing and ordering lose,
    invent and duplicate nothing. *)
Theorem assembled_elements (records drafts : list TypesPullReqActivity) :
  ∃ out,
    assemble (Some records) drafts = Some out ∧
    concat out ≡ₚ
      map activityToCommentItem
        (drafts ++
         concat (map (λ r, r :: List.filter (λ a, strict_eq (parent_id a) (id r)) records)
                     (List.filter is_root records))).
Proof.
  rewrite assemble_eq. eexists. split; [reflexivity|]. simpl. unfold assembled.
  rewrite concat_coalesce, concat_app, concat_draft_blocks, concat_root_blocks.
  by rewrite map_app.
Qed.

(** X15: when no fetched root is a title-change system record nothing is
    coalesced: the output is the draft block, if any, followed by one block
    per fetched root, newest root first, each root followed by its replies in
    the order they were fetched. *)
Theorem no_title_change_no_coalescing (records drafts : list TypesPullReqActivity) :
  (∀ r, r ∈ records → is_root r = true → is_title_change r = false) →
  assemble (Some records) drafts
    = Some ((match drafts with
             | [] => []
             | _ => [map activityToCommentItem (orderBy_edited_desc drafts)]
             end) ++
            map (λ r, map activityToCommentItem
                        (r :: List.filter (λ a, strict_eq (parent_id a) (id r)) records))
                (orderBy_edited_desc (List.filter is_root records))).
Proof.
  intros Hno. rewrite assemble_eq. simpl. f_equal.
  change (assembled records drafts = draft_blocks drafts ++ root_blocks records).
  unfold assembled. apply coalesce_at_most_one. rewrite List.filter_app, length_app.
  assert (List.filter isTitleChange (root_blocks records) = []) as ->.
  { unfold root_blocks.
    assert (Hrs : Forall (λ r, is_title_change r = false) (sorted_roots records)).
    { apply Forall_forall. intros r [Hr Hroot]%elem_of_sorted_roots. by apply Hno. }
    induction Hrs as [|r rs Hr _ IH]; simpl; [done|]. by rewrite Hr. }
  destruct drafts as [|d ds]; simpl; [lia|].
  destruct (isTitleChange _); simpl; lia.
Qed.

Lemma no_title_change_no_coalescing_witness :
  assemble (Some [reply_4; zero_parent_5; comment_3]) [draft_7]
    = Some [map activityToCommentItem [draft_7];
            map activityToCommentItem [zero_parent_5];
            map activityToCommentItem [comment_3; reply_4]].
Proof.
  rewrite (no_title_change_no_coalescing [reply_4; zero_parent_5; comment_3] [draft_7]).
  - reflexivity.
  - intros r Hr _.
    apply elem_of_cons in Hr as [->|Hr]; [reflexivity|].
    apply elem_of_cons in Hr as [->|Hr]; [reflexivity|].
    apply list_elem_of_singleton in Hr as ->. reflexivity.
Defined.

(** X16: title changes or not, every fetched root that is not a
    title-change system record has its block in the output: the root
    followed by the fetched records whose [parent_id] is its id, in the
    order they were fetched. *)
Theorem every_other_root_has_its_thread (records drafts : list TypesPullReqActivity) r :
  r ∈ records → is_root r = true → is_title_change r = false →
  ∃ out,
    assemble (Some records) drafts = Some out ∧
    map activityToCommentItem
      (r :: List.filter (λ a, strict_eq (parent_id a) (id r)) records) ∈ out.
Proof.
  intros Hr Hroot HTC. rewrite assemble_eq. eexists. split; [reflexivity|].
  change (map activityToCommentItem (thread records r) ∈ assembled records drafts).
  unfold assembled. apply elem_of_coalesce_keep; [|by rewrite is_title_change_block].
  apply elem_of_app. right. unfold root_blocks.
  apply (list_elem_of_fmap_2 (λ r, map activityToCommentItem (thread records r))).
  by apply elem_of_sorted_roots.
Qed.

Lemma every_other_root_has_its_thread_witness :
  ∃ out,
    assemble (Some [title_50; reply_4; comment_3; title_200]) [] = Some out ∧
    map activityToCommentItem [comment_3; reply_4] ∈ out.
Proof.
  apply (every_other_root_has_its_thread [title_50; reply_4; comment_3; title_200] []
           comment_3).
  - do 2 right. left.
  - reflexivity.
  - reflexivity.
Defined.

(** X17: while nothing has been fetched ([activities] undefined) the page
    shows the draft block only, as it does when the fetch delivered no
    record. *)
Theorem nothing_fetched_shows_the_drafts (drafts : list TypesPullReqActivity) :
  assemble None drafts
    = Some (match drafts with
            | [] => []
            | _ => [map activityToCommentItem (orderBy_edited_desc drafts)]
            end) ∧
  assemble (Some []) drafts = assemble None drafts.
Proof.
  rewrite !assemble_eq. simpl. split; [|done]. f_equal.
  change (assembled [] drafts = draft_blocks drafts). unfold assembled.
  change (root_blocks []) with (@nil (list CommentItem.t)). rewrite app_nil_r.
  apply coalesce_at_most_one. destruct drafts; simpl; [lia|].
  destruct (isTitleChange _); simpl; lia.
Qed.

(** X18: the array the assembler returns and the arrays of its blocks are
    allocated by the call: none of them is an array that existed before, the
    input arrays included, and no two blocks are the same array. *)
Theorem activityBlocks_returns_fresh_arrays (h : heap) (activities : option loc)
    (newComments : loc) (acts drafts : list TypesPullReqActivity) :
  h !! newComments = Some (ActivityArr drafts) →
  input_at h activities acts →
  ∃ out h' refs,
    activityBlocks activities newComments h = Some (out, h') ∧
    h' !! out = Some (RefArr refs) ∧
    NoDup (out :: refs) ∧
    ∀ r, r ∈ out :: refs → h !! r = None.
Proof.
  intros Hln Hin.
  destruct (activityBlocks_run h activities newComments acts drafts Hln Hin)
    as (out & h' & refs & Hrun & _ & (Hout & Hcells & Hnd) & Hfresh).
  exists out, h', refs. split; [done|]. split; [done|]. split.
  - constructor; [|done]. intros Hin'. apply list_elem_of_lookup in Hin' as [i Hi].
    destruct (Forall2_lookup_l _ _ _ _ _ Hcells Hi) as (b & _ & Hb).
    simpl in Hb. rewrite Hout in Hb. done.
  - intros r Hr. apply lookup_ge_None. by apply Hfresh.
Qed.

Lemma activityBlocks_returns_fresh_arrays_witness :
  ∃ out h' refs,
    activityBlocks (Some 1%nat) 0%nat
      [ActivityArr [draft_7]; ActivityArr [reply_4; title_50; comment_3; title_200]]
      = Some (out, h') ∧
    h' !! out = Some (RefArr refs) ∧ (2 ≤ out)%nat ∧ length refs = 3%nat.
Proof.
  destruct (activityBlocks_returns_fresh_arrays
              [ActivityArr [draft_7]; ActivityArr [reply_4; title_50; comment_3; title_200]]
              (Some 1%nat) 0%nat [reply_4; title_50; comment_3; title_200] [draft_7])
    as (out & h' & refs & Hrun & Hout & _ & _); [reflexivity|reflexivity|].
  exists out, h', refs. split; [exact Hrun|]. split; [exact Hout|].
  vm_compute in Hrun. injection Hrun as <- <-. vm_compute in Hout. injection Hout as <-.
  split; [lia|reflexivity].
Defined.

(** ** Properties of the rendering of the blocks *)

Lemma assembled_nonempty acts drafts : Forall (λ b, b ≠ []) (assembled acts drafts).
Proof.
  unfold assembled. pose proof (thread_blocks_nonempty acts drafts) as Hne.
  apply (Forall_impl (λ b, is_Some (head b))); [|by intros [|] []].
  apply (Forall_head_coalesce is_Some).
  eapply Forall_impl; [exact Hne|]. intros [|c b] Hb; [done|by eexists].
Qed.

Lemma isSystemComment_eq (h : heap) r c b :
  h !! r = Some (ItemArr (c :: b)) →
  isSystemComment r h = Some (bool_decide (kind (CommentItem.payload c) = "system"%string), h).
Proof.
  intros Hr. unfold isSystemComment.
  erewrite bind_eq; [|by eapply (Array_index_eq (H := Elem_item))]. done.
Qed.

Lemma isCodeComment_eq payload_type (h : heap) r c b :
  h !! r = Some (ItemArr (c :: b)) →
  isCodeComment payload_type r h =
    Some (bool_decide (payload_type (CommentItem.payload c) = Some CommentType_CODE_COMMENT), h).
Proof.
  intros Hr. unfold isCodeComment.
  erewrite bind_eq; [|by eapply (Array_index_eq (H := Elem_item))]. done.
Qed.

Lemma renderBlocks_run payload_type commentCreated (h : heap) out refs bs :
  blocks_at h out refs bs → Forall (λ b, b ≠ []) bs →
  ∃ els,
    renderBlocks payload_type commentCreated out h = Some (els, h) ∧
    length els = length refs ∧
    ∀ i r c rest, refs !! i = Some r → bs !! i = Some (c :: rest) →
      els !! i = Some (element_for payload_type commentCreated i r c).
Proof.
  intros (Hout & Hcells & _) Hne. unfold renderBlocks.
  erewrite bind_eq; [|by eapply (Array_length_eq (H := Elem_ref))].
  set (g := λ (r : nat) (k : nat),
    match h !! r with
    | Some (ItemArr (c :: _)) => element_for payload_type commentCreated k r c
    | _ => SystemBox_element 0 r
    end).
  erewrite (visit_readonly (H := Elem_ref) refs out _ g h Hout); [| |done].
  - eexists. split; [reflexivity|]. rewrite drop_0, length_imap. split; [done|].
    intros i r c rest Hr Hb. rewrite list_lookup_imap, Hr. simpl. unfold g.
    by rewrite (cells_lookup (H := Elem_item) _ _ _ _ _ _ Hcells Hr Hb).
  - intros k r Hr. destruct (Forall2_lookup_l _ _ _ _ _ Hcells Hr) as (b & Hb & Hrb).
    simpl in Hrb. destruct b as [|c b].
    { exfalso. eapply Forall_lookup_1 in Hne; [|exact Hb]. done. }
    erewrite bind_eq; [|by eapply (Array_index_eq (H := Elem_item))]. simpl.
    rewrite (bind_eq _ _ _ _ _ (isSystemComment_eq _ _ _ _ Hrb)).
    unfold g, element_for. rewrite Hrb.
    destruct (bool_decide (kind (CommentItem.payload c) = "system"%string)); [done|].
    by rewrite (bind_eq _ _ _ _ _ (isCodeComment_eq payload_type _ _ _ _ Hrb)).
Qed.

(** X19: rendering what the assembler returned never throws: the [map]
    callback finds a first element in every block, and it yields one element
    per block, in order, holding the block's own array, keyed by the id of
    the block's first record; it is a [SystemBox] exactly when that record's
    kind is system, and only the element of block 0 can carry the
    new-comment highlight. *)
Theorem rendering_the_assembled_blocks (payload_type : TypesPullReqActivity → option string)
    (commentCreated : bool) (h : heap) (activities : option loc) (newComments : loc)
    (acts drafts : list TypesPullReqActivity) :
  h !! newComments = Some (ActivityArr drafts) →
  input_at h activities acts →
  ∃ out h' refs els,
    activityBlocks activities newComments h = Some (out, h') ∧
    renderBlocks payload_type commentCreated out h' = Some (els, h') ∧
    h' !! out = Some (RefArr refs) ∧
    length els = length refs ∧
    ∀ i el, els !! i = Some el →
      ∃ r c rest,
        refs !! i = Some r ∧ h' !! r = Some (ItemArr (c :: rest)) ∧
        element_items el = r ∧
        element_key el = id (CommentItem.payload c) ∧
        ((∃ k l, el = SystemBox_element k l) ↔ kind (CommentItem.payload c) = "system"%string) ∧
        (element_highlighted el = true → i = O ∧ commentCreated = true).
Proof.
  intros Hln Hin.
  destruct (activityBlocks_run h activities newComments acts drafts Hln Hin)
    as (out & h' & refs & Hrun & _ & Hbl & _).
  destruct (renderBlocks_run payload_type commentCreated h' out refs _ Hbl
              (assembled_nonempty acts drafts)) as (els & Hrender & Hlen & Hels).
  exists out, h', refs, els. destruct Hbl as (Hout & Hcells & _).
  split; [done|]. split; [done|]. split; [done|]. split; [done|].
  intros i el Hel.
  destruct (lookup_lt_is_Some_2 refs i) as [r Hr].
  { apply lookup_lt_Some in Hel. lia. }
  destruct (Forall2_lookup_l _ _ _ _ _ Hcells Hr) as (b & Hb & Hrb). simpl in Hrb.
  destruct b as [|c rest].
  { exfalso. pose proof (assembled_nonempty acts drafts) as Hne.
    eapply Forall_lookup_1 in Hne; [|exact Hb]. done. }
  rewrite (Hels _ _ _ _ Hr Hb) in Hel. injection Hel as <-.
  exists r, c, rest. split; [done|]. split; [done|]. unfold element_for.
  destruct (bool_decide_reflect (kind (CommentItem.payload c) = "system"%string)) as [Hk|Hk];
    simpl.
  - split; [done|]. split; [done|]. split; [|done]. split; [done|]. by eexists _, _.
  - split; [done|]. split; [done|]. split.
    + split; [intros (k & l & [=])|done].
    + intros [Hcc Hi%bool_decide_eq_true]%andb_prop. done.
Qed.

Lemma rendering_the_assembled_blocks_witness :
  ∃ out h' els,
    activityBlocks (Some 1%nat) 0%nat
      [ActivityArr [draft_7]; ActivityArr [reply_4; title_50; comment_3; title_200]]
      = Some (out, h') ∧
    renderBlocks (λ _, None) true out h' = Some (els, h') ∧
    map element_key els = [7; 2; 3] ∧
    map element_highlighted els = [true; false; false].
Proof.
  destruct (rendering_the_assembled_blocks (λ _, None) true
              [ActivityArr [draft_7]; ActivityArr [reply_4; title_50; comment_3; title_200]]
              (Some 1%nat) 0%nat [reply_4; title_50; comment_3; title_200] [draft_7])
    as (out & h' & refs & els & Hrun & Hrender & _); [reflexivity|reflexivity|].
  exists out, h', els. split; [exact Hrun|]. split; [exact Hrender|].
  vm_compute in Hrun. injection Hrun as <- <-.
  vm_compute in Hrender. injection Hrender as <-. split; reflexivity.
Defined.

(** The id of the record a block starts with. *)
Lemma head_ids_coalesce bs :
  map (λ b, (λ c, id (CommentItem.payload c)) <$> head b) (coalesce bs)
    `sublist_of` map (λ b, (λ c, id (CommentItem.payload c)) <$> head b) bs.
Proof.
  induction bs as [|b bs IH]; simpl; [done|].
  destruct (isTitleChange b) eqn:Hb; simpl.
  - rewrite (head_app_isTitleChange _ _ Hb). apply sublist_skip.
    clear. induction bs as [|x bs IH]; simpl; [done|].
    destruct (isTitleChange x); simpl; [by apply sublist_cons|by apply sublist_skip].
  - by apply sublist_skip.
Qed.

Lemma head_ids_blocks acts drafts :
  map (λ b, (λ c, id (CommentItem.payload c)) <$> head b) (draft_blocks drafts ++ root_blocks acts)
    = map (λ a, Some (id a)) (take 1 (orderBy_edited_desc drafts) ++ sorted_roots acts).
Proof.
  rewrite !map_app. f_equal.
  - unfold draft_blocks. destruct drafts as [|d ds]; [done|].
    pose proof (Permutation_length (orderBy_edited_desc_perm (d :: ds))) as Hlen.
    destruct (orderBy_edited_desc (d :: ds)) as [|x l]; [done|]. done.
  - unfold root_blocks. rewrite map_map. done.
Qed.

(** X20: the keys React gets for the blocks are pairwise distinct whenever
    the newest draft and the fetched roots have pairwise distinct records
    (as they have when ids are unique and no draft has been fetched yet). *)
Theorem block_keys_are_distinct (payload_type : TypesPullReqActivity → option string)
    (commentCreated : bool) (h : heap) (activities : option loc) (newComments : loc)
    (acts drafts : list TypesPullReqActivity) :
  h !! newComments = Some (ActivityArr drafts) →
  input_at h activities acts →
  NoDup (map id (take 1 (orderBy_edited_desc drafts) ++ List.filter is_root acts)) →
  ∃ out h' els,
    activityBlocks activities newComments h = Some (out, h') ∧
    renderBlocks payload_type commentCreated out h' = Some (els, h') ∧
    NoDup (map element_key els).
Proof.
  intros Hln Hin Hnd.
  destruct (activityBlocks_run h activities newComments acts drafts Hln Hin)
    as (out & h' & refs & Hrun & _ & Hbl & _).
  pose proof (assembled_nonempty acts drafts) as Hne.
  destruct (renderBlocks_run payload_type commentCreated h' out refs _ Hbl Hne)
    as (els & Hrender & Hlen & Hels).
  exists out, h', els. split; [done|]. split; [done|].
  destruct Hbl as (_ & Hcells & _).
  assert (Hkeys : Some <$> map element_key els
                  = map (λ b, (λ c, id (CommentItem.payload c)) <$> head b) (assembled acts drafts)).
  { apply list_eq. intros i. rewrite !list_lookup_fmap.
    destruct (refs !! i) as [r|] eqn:Hr.
    - destruct (Forall2_lookup_l _ _ _ _ _ Hcells Hr) as (b & Hb & _).
      destruct b as [|c rest].
      { exfalso. eapply Forall_lookup_1 in Hne; [|exact Hb]. done. }
      rewrite (Hels _ _ _ _ Hr Hb), Hb. simpl. unfold element_for.
      by destruct (bool_decide _).
    - apply lookup_ge_None in Hr.
      rewrite (proj2 (lookup_ge_None els i)) by lia.
      rewrite (proj2 (lookup_ge_None (assembled acts drafts) i)); [done|].
      apply Forall2_length in Hcells. lia. }
  apply (NoDup_fmap_1 Some). rewrite Hkeys. unfold assembled.
  eapply sublist_NoDup; [|apply head_ids_coalesce].
  rewrite head_ids_blocks, <- map_map. apply NoDup_fmap; [by intros ?? [=]|].
  rewrite map_app. rewrite map_app in Hnd. unfold sorted_roots.
  by rewrite (orderBy_edited_desc_perm (List.filter is_root acts)).
Qed.

Lemma block_keys_are_distinct_witness :
  ∃ out h' els,
    activityBlocks (Some 1%nat) 0%nat
      [ActivityArr [draft_7; draft_8]; ActivityArr [reply_4; title_50; comment_3; title_200]]
      = Some (out, h') ∧
    renderBlocks (λ _, None) false out h' = Some (els, h') ∧
    NoDup (map element_key els).
Proof.
  apply (block_keys_are_distinct (λ _, None) false
           [ActivityArr [draft_7; draft_8]; ActivityArr [reply_4; title_50; comment_3; title_200]]
           (Some 1%nat) 0%nat [reply_4; title_50; comment_3; title_200] [draft_7; draft_8]).
  - reflexivity.
  - reflexivity.
  - vm_compute. repeat (constructor; [rewrite ?elem_of_cons, ?elem_of_nil; intuition lia|]).
    constructor.
Defined.

Lemma Permutation_List_filter_length {A} (p : A → bool) (l l' : list A) :
  l ≡ₚ l' → length (List.filter p l) = length (List.filter p l').
Proof.
  induction 1 as [|x l l' _ IH|x y l|l l' l'' _ IH _ IH']; simpl.
  - done.
  - destruct (p x); simpl; congruence.
  - destruct (p x), (p y); simpl; congruence.
  - congruence.
Qed.

Lemma elem_of_counted {A} `{EqDecision A} (x : A) (l : list A) :
  x ∈ l → (1 ≤ length (List.filter (λ y, bool_decide (y = x)) l))%nat.
Proof.
  induction 1 as [y l|y z l _ IH]; simpl.
  - rewrite bool_decide_eq_true_2 by done. simpl. lia.
  - destruct (bool_decide (z = y)); simpl; lia.
Qed.

Lemma concat_assembled (records drafts : list TypesPullReqActivity) :
  concat (assembled records drafts) ≡ₚ
    map activityToCommentItem
      (drafts ++ concat (map (thread records) (List.filter is_root records))).
Proof.
  unfold assembled.
  rewrite concat_coalesce, concat_app, concat_draft_blocks, concat_root_blocks.
  by rewrite map_app.
Qed.

(** X21: the draft buffer is not reconciled with what is fetched: a draft
    that is also among the fetched roots is on the page twice, once from the
    buffer and once from the fetch. *)
Theorem fetched_draft_is_shown_twice (records drafts : list TypesPullReqActivity) d :
  d ∈ drafts → d ∈ records → is_root d = true →
  ∃ out,
    assemble (Some records) drafts = Some out ∧
    (2 ≤ length (List.filter (λ c, bool_decide (c = activityToCommentItem d))
                   (concat out)))%nat.
Proof.
  intros Hd Hr Hroot. rewrite assemble_eq. eexists. split; [reflexivity|]. simpl.
  rewrite (Permutation_List_filter_length _ _ _ (concat_assembled records drafts)).
  rewrite map_app, List.filter_app, length_app.
  pose proof (elem_of_counted (activityToCommentItem d) (map activityToCommentItem drafts)
                (list_elem_of_fmap_2 _ _ _ Hd)) as H1.
  assert (activityToCommentItem d ∈
          map activityToCommentItem
            (concat (map (thread records) (List.filter is_root records)))) as H2.
  { apply list_elem_of_fmap_2, elem_of_concat. exists (thread records d). split.
    - apply list_elem_of_fmap_2. by apply elem_of_List_filter.
    - by left. }
  apply elem_of_counted in H2. lia.
Qed.

Lemma fetched_draft_is_shown_twice_witness :
  ∃ out,
    assemble (Some [comment_3; draft_7]) [draft_7] = Some out ∧
    out = [map activityToCommentItem [draft_7];
           map activityToCommentItem [draft_7];
           map activityToCommentItem [comment_3]].
Proof.
  destruct (fetched_draft_is_shown_twice [comment_3; draft_7] [draft_7] draft_7)
    as (out & Hout & _).
  - by left.
  - right. by left.
  - reflexivity.
  - exists out. split; [exact Hout|]. vm_compute in Hout. by injection Hout as <-.
Defined.

(** ** Properties of [DescriptionBox] *)

(** X22: whatever is clicked and whatever the backend answers, in whatever
    order, the description on display is the value of the last save that was
    resolved (the description the page was given, if none was), the content
    kept for cancelling is the same value, and the time shown is the time of
    that save: a rejected save, a cancel and an edit that is still open
    change none of them. *)
Theorem description_shows_the_last_saved_value {Exception : Type}
    (getErrorMessage : Exception → string) (getString : string → string)
    (pullRequestMetadata : PullReq.t) (steps : list (DescriptionStep Exception)) :
  let (st, _) := DescriptionBox_run getErrorMessage getString pullRequestMetadata steps in
  content st = (last_saved pullRequestMetadata steps).1 ∧
  originalContent st = content st ∧
  updated st = (last_saved pullRequestMetadata steps).2.
Proof.
  unfold DescriptionBox_run, last_saved.
  induction steps as [|step steps IH] using rev_ind; [done|].
  rewrite !foldl_app. simpl.
  destruct (foldl _ (DescriptionBox_initial pullRequestMetadata, []) steps) as [st evs].
  destruct IH as (Hc & Ho & Hu). destruct step; simpl; try done.
  repeat split; congruence.
Qed.

(** The events of a series of steps: one PATCH, with the title unchanged,
    per save that leaves the editor; one error per rejected save; one refresh
    of the pull-request metadata per resolved save. *)
Lemma description_events_follow_the_steps {Exception : Type}
    (getErrorMessage : Exception → string) (getString : string → string)
    (pullRequestMetadata : PullReq.t) (steps : list (DescriptionStep Exception)) :
  (DescriptionBox_run getErrorMessage getString pullRequestMetadata steps).2
    = flat_map (λ step,
                  match step with
                  | ClickSave value =>
                      [PATCH_pullreq (PullReq.title pullRequestMetadata) value]
                  | SaveResolved _ _ => [refreshPullRequestMetadata]
                  | SaveRejected exception =>
                      [Description_showError (getErrorMessage exception) 0
                         (getString "pr.failedToUpdate")]
                  | _ => []
                  end) steps.
Proof.
  unfold DescriptionBox_run.
  induction steps as [|step steps IH] using rev_ind; [done|].
  rewrite foldl_app, flat_map_app. simpl.
  destruct (foldl _ (DescriptionBox_initial pullRequestMetadata, []) steps) as [st evs].
  simpl in IH. rewrite <- IH. destruct step; simpl; by rewrite ?app_nil_r.
Qed.

(** ** Properties of [useAnimateNewCommentBox] *)

Lemma hook_run_nothing_pending steps k :
  pending k = ∅ →
  pending (hook_run steps k) = ∅ ∧ done_at (hook_run steps k) = done_at k.
Proof.
  revert k. induction steps as [|step steps IH]; intros k Hk; simpl; [done|].
  assert (hook_step k step = k
          ∨ (pending (hook_step k step) = ∅ ∧ done_at (hook_step k step) = done_at k))
    as [->|[Hp Hd]].
  { destruct step as [id now query|]; simpl.
    - left. unfold fire. by rewrite Hk, lookup_empty.
    - right. unfold cleanup. simpl. by rewrite Hk, delete_empty. }
  - by apply IH.
  - rewrite <- Hd. by apply IH.
Qed.

Lemma only_timeoutId_is_pending commentCreated now0 counter0 steps :
  ∀ id, id ≠ timeoutId (hook_run steps (useAnimateNewCommentBox commentCreated now0 counter0)) →
        pending (hook_run steps (useAnimateNewCommentBox commentCreated now0 counter0)) !! id
          = None.
Proof.
  induction steps as [|step steps IH] using rev_ind.
  - intros id Hid. unfold useAnimateNewCommentBox in *. destruct commentCreated; simpl in *.
    + rewrite lookup_insert_ne by done. apply lookup_empty.
    + apply lookup_empty.
  - unfold hook_run in *. rewrite foldl_app. simpl.
    set (k := foldl hook_step (useAnimateNewCommentBox commentCreated now0 counter0) steps)
      in *.
    intros id. destruct step as [fid now query|]; simpl.
    + unfold fire. destruct (pending k !! fid) as [[due cb]|] eqn:Hf; [|apply IH].
      destruct (due <=? now); [|apply IH].
      assert (fid = timeoutId k) as ->.
      { destruct (decide (fid = timeoutId k)); [done|]. rewrite IH in Hf; done. }
      assert (Hdel : ∀ j, delete (timeoutId k) (pending k) !! j = None).
      { intros j. destruct (decide (j = timeoutId k)) as [->|Hj].
        - apply lookup_delete_eq.
        - rewrite lookup_delete_ne by done. by apply IH. }
      destruct cb as [|box|]; [destruct query|destruct box|]; simpl; intros Hid;
        rewrite ?lookup_insert_ne by done; apply Hdel.
    + intros Hid. rewrite lookup_delete_ne by done. by apply IH.
Qed.

(** X23: the cleanup cancels whatever this run of the effect has pending, at
    whatever stage it runs: after it, no timer of the effect does anything
    any more, whichever timers the browser tries to run. *)
Theorem cleanup_cancels_the_animation (commentCreated : bool) (now0 : Z) (counter0 : nat)
    (before after : list HookStep) :
  done_at (hook_run (before ++ Cleanup :: after)
             (useAnimateNewCommentBox commentCreated now0 counter0))
    = done_at (hook_run before (useAnimateNewCommentBox commentCreated now0 counter0)).
Proof.
  unfold hook_run at 1. rewrite foldl_app. simpl.
  fold (hook_run before (useAnimateNewCommentBox commentCreated now0 counter0)).
  set (k := hook_run before (useAnimateNewCommentBox commentCreated now0 counter0)).
  fold (hook_run after (cleanup k)).
  destruct (hook_run_nothing_pending after (cleanup k)) as [_ ->]; [|done].
  apply map_eq. intros id. rewrite lookup_empty. unfold cleanup. simpl.
  destruct (decide (id = timeoutId k)) as [->|Hid].
  - apply lookup_delete_eq.
  - rewrite lookup_delete_ne by done. by apply only_timeoutId_is_pending.
Qed.

(** X24: the just-created flag is reset by the effect at most once, only if
    the effect ran with the flag set, and not before 7300 ms (300 + 5000 +
    2000) after the effect ran, whenever the browser runs the timers and
    whether or not the box is found. *)
Theorem highlight_is_reset_once_after_7300ms (commentCreated : bool) (now0 : Z)
    (counter0 : nat) (steps : list HookStep) :
  let k := hook_run steps (useAnimateNewCommentBox commentCreated now0 counter0) in
  (length (List.filter (λ e, bool_decide (e.2 = setCommentCreated_false)) (done_at k)) ≤ 1)%nat ∧
  ∀ t, (t, setCommentCreated_false) ∈ done_at k → commentCreated = true ∧ now0 + 7300 ≤ t.
Proof.
  cbv zeta.
  set (due_ok := λ (due : Z) (cb : Callback),
         match cb with
         | scroll_callback => now0 + 300 ≤ due
         | clear_callback _ => now0 + 5300 ≤ due
         | reset_callback => now0 + 7300 ≤ due
         end).
  set (resets := λ k : Hook,
         List.filter (λ e : Z * DomEvent, bool_decide (e.2 = setCommentCreated_false))
                     (done_at k)).
  assert (Hinv : ∀ k, k = hook_run steps (useAnimateNewCommentBox commentCreated now0 counter0) →
            (∀ id due cb, pending k !! id = Some (due, cb) →
               commentCreated = true ∧ due_ok due cb ∧ resets k = []) ∧
            (length (resets k) ≤ 1)%nat ∧
            (∀ t, (t, setCommentCreated_false) ∈ done_at k →
                  commentCreated = true ∧ now0 + 7300 ≤ t)).
  { induction steps as [|step steps IH] using rev_ind; intros k ->.
    - unfold useAnimateNewCommentBox, resets. destruct commentCreated; simpl.
      + split; [|split; [lia|by intros t ?%elem_of_nil]].
        intros id due cb [[_ [= <- <-]]|[_ Hl]]%lookup_insert_Some;
          [simpl; split; [done|split; [lia|done]]|by rewrite lookup_empty in Hl].
      + split; [|split; [lia|by intros t ?%elem_of_nil]].
        intros id due cb Hl. by rewrite lookup_empty in Hl.
    - pose proof (only_timeoutId_is_pending commentCreated now0 counter0 steps) as Honly.
      unfold hook_run in *. rewrite foldl_app. simpl.
      set (k := foldl hook_step (useAnimateNewCommentBox commentCreated now0 counter0) steps)
        in *.
      destruct (IH k eq_refl) as (Hpend & Hcount & Hdone). clear IH.
      destruct step as [fid now query|]; simpl.
      + unfold fire. destruct (pending k !! fid) as [[due cb]|] eqn:Hf; [|done].
        destruct (Z.leb_spec due now) as [Hdue|]; [|done].
        destruct (Hpend _ _ _ Hf) as (Hcc & Hok & Hnone).
        assert (fid = timeoutId k) as ->.
        { destruct (decide (fid = timeoutId k)); [done|]. rewrite Honly in Hf; done. }
        assert (Hdel : ∀ j, delete (timeoutId k) (pending k) !! j = None).
        { intros j. destruct (decide (j = timeoutId k)) as [->|Hj].
          - apply lookup_delete_eq.
          - rewrite lookup_delete_ne by done. by apply Honly. }
        unfold resets in *.
        destruct cb as [|box|]; [destruct query as [b|]|destruct box as [b|]|]; simpl in *;
          rewrite ?List.filter_app, ?Hnone; simpl;
          (split; [|split; [lia|]]).
        all: try (intros id due' cb' [[_ [= <- <-]]|[_ Hl]]%lookup_insert_Some;
                  [simpl; split; [done|split; [lia|done]]|by rewrite Hdel in Hl]).
        all: try (intros t [Ht|Ht%list_elem_of_singleton]%elem_of_app;
                  [by apply Hdone|done]).
        all: try done.
        * intros id due' cb' Hl. by rewrite Hdel in Hl.
        * intros t [Ht|Ht%list_elem_of_singleton]%elem_of_app; [by apply Hdone|].
          injection Ht as ->. split; [done|lia].
      + split; [|done]. intros id due cb Hl.
        apply lookup_delete_Some in Hl as [_ Hl]. by apply (Hpend id). }
  destruct (Hinv _ eq_refl) as (_ & Hcount & Hdone). by split.
Qed.

(** A run that is not torn down, with the box found and each timer run when
    it is due. *)
Example animation_run_to_the_end :
  done_at (hook_run [Fire 1 300 (Some 9%nat); Fire 2 5300 None; Fire 3 7300 None]
             (useAnimateNewCommentBox true 0 0))
    = [(300, scrollIntoView 9); (5300, classList_add_clear 9);
       (7300, setCommentCreated_false)].
Proof. reflexivity. Qed.

(** The same run torn down after the scroll: nothing follows. *)
Example animation_torn_down :
  done_at (hook_run [Fire 1 300 (Some 9%nat); Cleanup; Fire 2 5300 None; Fire 3 7300 None]
             (useAnimateNewCommentBox true 0 0))
    = [(300, scrollIntoView 9)].
Proof. reflexivity. Qed.
